(** * The docker discovery provider of reproxy

    A shallow embedding of [app/discovery/provider/docker.go]: the
    inventory listing ([List], [listContainers]) as pure functions over the
    answer of the docker client, and the event watcher ([Events], [events])
    as a transition system over what the goroutine observes at each of its
    blocking operations. *)

From Stdlib Require Import Ascii.
From stdpp Require Import base strings gmap list pretty.

Open Scope Z_scope.

(** ** Errors

    Go errors as the file builds and compares them: the two sentinels of
    package [context], [errors.New] and [errors.Wrap]/[errors.Wrapf].
    Comparison with [==] against a sentinel is identity, so a wrapped
    sentinel is not the sentinel. *)

Inductive error : Type :=
| Canceled
| DeadlineExceeded
| errorString (s : string)
| withMessage (cause : error) (msg : string).

#[global] Instance error_eq_dec : EqDecision error.
Proof. solve_decision. Defined.

(** [err.Error()] *)
Fixpoint Error (e : error) : string :=
  match e with
  | Canceled => "context canceled"
  | DeadlineExceeded => "context deadline exceeded"
  | errorString s => s
  | withMessage cause msg => msg +:+ ": " +:+ Error cause
  end.

(** [errors.Wrap(err, msg)] *)
Definition Wrap (err : error) (msg : string) : error := withMessage err msg.

(** A Go call either returns or panics (index out of range). *)
Inductive outcome (A : Type) : Type :=
| Returned (a : A)
| Panicked.
Arguments Returned {A} a.
Arguments Panicked {A}.

(** ** Strings *)

Fixpoint strip_prefix (prefix s : string) : option string :=
  match prefix, s with
  | EmptyString, _ => Some s
  | String a prefix', String b s' =>
      if Ascii.eqb a b then strip_prefix prefix' s' else None
  | String _ _, EmptyString => None
  end.

(** [strings.TrimPrefix(s, prefix)] *)
Definition TrimPrefix (s prefix : string) : string :=
  default s (strip_prefix prefix s).

(** [strings.Contains(s, sub)], used to say that a message names something. *)
Fixpoint has_infix (sub s : string) : bool :=
  match strip_prefix sub s with
  | Some _ => true
  | None => match s with
            | EmptyString => false
            | String _ s' => has_infix sub s'
            end
  end.

(** The message of [e] contains [what]. *)
Definition identifies (e : error) (what : string) : bool := has_infix what (Error e).

(** [func contains(e string, s []string) bool] *)
Fixpoint contains (e : string) (s : list string) : bool :=
  match s with
  | [] => false
  | a :: s' => if String.eqb a e then true else contains e s'
  end.

Definition upStatuses : list string := ["start"; "restart"].
Definition downStatuses : list string := ["die"; "destroy"; "stop"; "pause"].

(** ** Integers

    [APIPort.PrivatePort] is an [int64]; [int(...)] keeps it on the 64-bit
    targets, where [int] has the same width. *)

Definition wrap64 (x : Z) : Z := (x + 2 ^ 63) `mod` 2 ^ 64 - 2 ^ 63.
Definition int64_range (x : Z) : Prop := - 2 ^ 63 <= x < 2 ^ 63.
Definition int_of_int64 (x : Z) : Z := wrap64 x.

(** ** The types of go-dockerclient the provider reads *)

Module dc.

Record APIPort : Type := { PrivatePort : Z }.

Record ContainerNetwork : Type := { IPAddress : string }.

Record NetworkList : Type := { Networks : gmap string ContainerNetwork }.

Record APIContainers : Type := {
  ID : string;
  Names : list string;
  Status : string;
  Created : Z;
  Ports : list APIPort;
  Labels : gmap string string;
  ContainerNetworks : NetworkList  (* field [Networks] *)
}.

Record ListContainersOptions : Type := { All : bool }.

Record APIActor : Type := { Attributes : gmap string string }.

Record APIEvents : Type := {
  Type_ : string;   (* field [Type] *)
  EvStatus : string;  (* field [Status] *)
  Actor : APIActor
}.

End dc.

(** The [ListContainers] half of the [DockerClient] interface; the
    [AddEventListener] half answers through the watcher's observations. *)
Record DockerClient : Type := {
  ListContainers : dc.ListContainersOptions -> list dc.APIContainers * option error
}.

Record Docker : Type := {
  Client : DockerClient;   (* field [DockerClient] *)
  Excludes : list string;
  Network : string
}.

Record containerInfo : Type := {
  ID : string;
  Name : string;
  TS : Z;
  Labels : gmap string string;
  IP : string;
  Port : Z
}.

(** ** Regular expressions

    [regexp.Compile] and the [String] method of its result belong to Go's
    library; the provider uses them through this interface.  [String]
    returns the source text the expression was compiled from. *)

Class RegexpPkg : Type := {
  Regexp : Type;
  Compile : string -> Regexp + error;
  String_ : Regexp -> string;
  Compile_String : forall expr re, Compile expr = inl re -> String_ re = expr
}.

Module discovery.

(** Modelled from the spec: [discovery.UrlMapper] is declared in package
    [app/discovery]; these are the three fields [List] fills in. *)
Record UrlMapper `{RegexpPkg} : Type := {
  Server : string;
  SrcMatch : Regexp;
  Dst : string
}.

End discovery.

(** ** Inventory: [listContainers] *)

(** The closure [portExposed]. *)
Definition portExposed (c : dc.APIContainers) : Z * bool :=
  match dc.Ports c with
  | [] => (0, false)
  | p :: _ => (int_of_int64 (dc.PrivatePort p), true)
  end.

(** The loop over [c.Networks.Networks] that looks for the configured
    network, over the entries in the order the map yields them. *)
Fixpoint network_ip (network : string) (entries : list (string * dc.ContainerNetwork))
  : string :=
  match entries with
  | [] => ""
  | (k, v) :: rest =>
      if String.eqb k network then dc.IPAddress v else network_ip network rest
  end.

(** One turn of the loop of [listContainers]: [None] stands for
    [continue], [Some ci] for the snapshot appended to [res]. *)
Definition inspect (d : Docker) (c : dc.APIContainers) : outcome (option containerInfo) :=
  if negb (contains (dc.Status c) upStatuses) then Returned None
  else
    match dc.Names c !! 0%nat with
    | None => Panicked
    | Some name0 =>
        let containerName := TrimPrefix name0 "/" in
        if contains containerName (Excludes d) then Returned None
        else
          let ip := network_ip (Network d)
                      (map_to_list (dc.Networks (dc.ContainerNetworks c))) in
          if String.eqb ip "" then Returned None
          else
            let '(port, ok) := portExposed c in
            if negb ok then Returned None
            else Returned (Some {| Name := containerName;
                                   ID := dc.ID c;
                                   TS := dc.Created c `quot` 1000;
                                   Labels := dc.Labels c;
                                   IP := ip;
                                   Port := port |})
    end.

Fixpoint scan (d : Docker) (containers : list dc.APIContainers)
  (res : list containerInfo) : outcome (list containerInfo) :=
  match containers with
  | [] => Returned res
  | c :: rest =>
      match inspect d c with
      | Panicked => Panicked
      | Returned None => scan d rest res
      | Returned (Some ci) => scan d rest (res ++ [ci])
      end
  end.

(** The snapshot a container contributes when its turn returns. *)
Definition kept (d : Docker) (c : dc.APIContainers) : list containerInfo :=
  match inspect d c with
  | Returned (Some ci) => [ci]
  | _ => []
  end.

Definition listContainers (d : Docker) : outcome (list containerInfo * option error) :=
  let '(containers, err) := ListContainers (Client d) {| dc.All := false |} in
  match err with
  | Some e => Returned ([], Some (Wrap e "can't list containers"))
  | None =>
      match scan d containers [] with
      | Panicked => Panicked
      | Returned res => Returned (res, None)
      end
  end.

(** ** Inventory: [List] *)

Section Mapping.
Context `{RegexpPkg}.

Definition srcURL_of (c : containerInfo) : string :=
  let srcURL := "^/api/" +:+ Name c +:+ "/(.*)" in
  match Labels c !! "dpx.route" with
  | Some v => v
  | None => srcURL
  end.

Definition destURL_of (c : containerInfo) : string :=
  let destURL := "http://" +:+ IP c +:+ ":" +:+ pretty (Port c) +:+ "/$1" in
  match Labels c !! "dpx.dest" with
  | Some v => "http://" +:+ IP c +:+ ":" +:+ pretty (Port c) +:+ v
  | None => destURL
  end.

Definition server_of (c : containerInfo) : string :=
  let server := "*" in
  match Labels c !! "dpx.server" with
  | Some v => v
  | None => server
  end.

(** The loop of [List] over the snapshots, [res] being the rules
    appended so far. *)
Fixpoint mappers (containers : list containerInfo) (res : list discovery.UrlMapper)
  : list discovery.UrlMapper * option error :=
  match containers with
  | [] => (res, None)
  | c :: rest =>
      let srcURL := srcURL_of c in
      let destURL := destURL_of c in
      let server := server_of c in
      match Compile srcURL with
      | inr err => ([], Some (Wrap err ("invalid src regex " +:+ srcURL)))
      | inl srcRegex =>
          mappers rest (res ++ [ {| discovery.Server := server;
                                    discovery.SrcMatch := srcRegex;
                                    discovery.Dst := destURL |} ])
      end
  end.

Definition List (d : Docker) : outcome (list discovery.UrlMapper * option error) :=
  match listContainers d with
  | Panicked => Panicked
  | Returned (containers, Some err) => Returned ([], Some err)
  | Returned (containers, None) => Returned (mappers containers [])
  end.

(** The source pattern of a snapshot compiles. *)
Definition compiles (c : containerInfo) : Prop :=
  exists re, Compile (srcURL_of c) = inl re.

(** [rule] is the rule [List] derives from the snapshot [c]. *)
Definition rule_of (c : containerInfo) (rule : discovery.UrlMapper) : Prop :=
  discovery.Server rule = server_of c /\
  String_ (discovery.SrcMatch rule) = srcURL_of c /\
  discovery.Dst rule = destURL_of c.

(** Every snapshot of the enumeration has a pattern that compiles. *)
Definition routable (d : Docker) (containers : list dc.APIContainers) : Prop :=
  forall ci, ci ∈ containers ≫= kept d -> compiles ci.

End Mapping.

(** The provider's client answers [ListContainers(All: false)] with
    [containers] and no error. *)
Definition enumerates (d : Docker) (containers : list dc.APIContainers) : Prop :=
  ListContainers (Client d) {| dc.All := false |} = (containers, None).

(** Two providers that differ at most in their client. *)
Definition same_config (d d' : Docker) : Prop :=
  Excludes d = Excludes d' /\ Network d = Network d'.

(** Every enumerated container has a name. *)
Definition named (containers : list dc.APIContainers) : Prop :=
  forall c, c ∈ containers -> dc.Names c <> [].

(** No label key starts with [dpx.]. *)
Definition no_dpx_labels (labels : gmap string string) : Prop :=
  forall k, String.prefix "dpx." k = true -> labels !! k = None.

(** ** The event watcher

    The goroutine started by [Events] runs [d.events] in a loop.  It is
    modelled by where it stands and by what it observes there: the state of
    the context, the answer of [AddEventListener], the case [select]
    takes, and the consumer receiving from the unbuffered [eventsCh]. *)

Inductive ctx_state : Type :=
| Live        (* [ctx.Done()] is open *)
| Cancelled   (* the cancel function was called *)
| Expired.    (* the deadline passed *)

(** [ctx.Err()] *)
Definition ctx_Err (c : ctx_state) : option error :=
  match c with
  | Live => None
  | Cancelled => Some Canceled
  | Expired => Some DeadlineExceeded
  end.

Inductive place : Type :=
| Subscribing   (* [events]: calling [client.AddEventListener] *)
| Selecting     (* [events]: blocked in [select] *)
| Sending       (* [events]: blocked in [eventsCh <- struct{}{}] *)
| Finished.     (* the goroutine has returned *)

#[global] Instance place_eq_dec : EqDecision place.
Proof. solve_decision. Defined.

Record watcher : Type := {
  ctx : ctx_state;
  at_ : place
}.

Inductive obs : Type :=
| CtxCancel                      (* the owner cancels the context *)
| CtxDeadline                    (* the deadline of the context passes *)
| Listener (r : option error)    (* [AddEventListener] returns [r] *)
| CtxDone                        (* [select] takes [<-ctx.Done()] *)
| FeedEvent (ev : dc.APIEvents)  (* [select] receives [ev] *)
| FeedClosed                     (* [select] finds [dockerEventsCh] closed *)
| Taken.                         (* the consumer receives from [eventsCh] *)

(** What the goroutine does to the outside; a log line is kept by its
    format. *)
Inductive action : Type :=
| Log (format : string)
| Sleep (nanoseconds : Z)
| Signal
| Close.

#[global] Instance action_eq_dec : EqDecision action.
Proof. solve_decision. Defined.

Definition Millisecond : Z := 1000000.

(** The first firing of the context wins. *)
Definition fire (c : ctx_state) (w : watcher) : watcher :=
  {| ctx := match ctx w with Live => c | old => old end; at_ := at_ w |}.

Definition goto (p : place) (w : watcher) : watcher :=
  {| ctx := ctx w; at_ := p |}.

(** The warning and the pause before [d.events] is called again. *)
Definition restarted : list action :=
  [Log "[WARN] docker events listener failed, restarted, %v";
   Sleep (100 * Millisecond)].

(** The body of the loop of [Events] once [d.events] has returned [err]. *)
Definition events_returned (err : error) (w : watcher) : watcher * list action :=
  if bool_decide (err = Canceled) || bool_decide (err = DeadlineExceeded)
  then (goto Finished w, [Close])
  else (goto Subscribing w, restarted).

(** [ev.Actor.Attributes["name"]]: a missing key reads as the empty string. *)
Definition actor_name (ev : dc.APIEvents) : string :=
  default "" (dc.Attributes (dc.Actor ev) !! "name").

(** The [select] case that received [ev]. *)
Definition received (d : Docker) (ev : dc.APIEvents) (w : watcher)
  : watcher * list action :=
  if negb (String.eqb (dc.Type_ ev) "container") then (w, [])
  else if negb (contains (dc.EvStatus ev) upStatuses)
          && negb (contains (dc.EvStatus ev) downStatuses) then (w, [])
  else
    let containerName := TrimPrefix (actor_name ev) "/" in
    if contains containerName (Excludes d)
    then (w, [Log "[DEBUG] api event %+v"; Log "[DEBUG] container %s excluded"])
    else (goto Sending w, [Log "[DEBUG] api event %+v"; Log "[INFO] new event %+v"]).

(** One observation; [None] when the goroutine cannot observe [o] where it
    stands. *)
Definition step (d : Docker) (w : watcher) (o : obs) : option (watcher * list action) :=
  match o, at_ w with
  | CtxCancel, _ => Some (fire Cancelled w, [])
  | CtxDeadline, _ => Some (fire Expired w, [])
  | Listener None, Subscribing => Some (goto Selecting w, [])
  | Listener (Some err), Subscribing =>
      Some (events_returned (Wrap err "can't add even listener") w)
  | CtxDone, Selecting =>
      match ctx_Err (ctx w) with
      | Some err => Some (events_returned err w)
      | None => None
      end
  | FeedClosed, Selecting => Some (events_returned (errorString "events closed") w)
  | FeedEvent ev, Selecting => Some (received d ev w)
  | Taken, Sending => Some (goto Selecting w, [Signal])
  | _, _ => None
  end.

Fixpoint run (d : Docker) (w : watcher) (os : list obs) : option (watcher * list action) :=
  match os with
  | [] => Some (w, [])
  | o :: rest =>
      match step d w o with
      | None => None
      | Some (w', out) =>
          match run d w' rest with
          | None => None
          | Some (w'', out') => Some (w'', out ++ out')
          end
      end
  end.

(** [Events(ctx)]: the goroutine starts at the first call of [d.events]. *)
Definition Events (c : ctx_state) : watcher := {| ctx := c; at_ := Subscribing |}.

(** The three tests of [events] on a received event. *)
Definition signalled (d : Docker) (ev : dc.APIEvents) : bool :=
  String.eqb (dc.Type_ ev) "container"
  && (contains (dc.EvStatus ev) upStatuses || contains (dc.EvStatus ev) downStatuses)
  && negb (contains (TrimPrefix (actor_name ev) "/") (Excludes d)).

Definition feed_events (os : list obs) : list dc.APIEvents :=
  omap (fun o => match o with FeedEvent ev => Some ev | _ => None end) os.

Definition signals (out : list action) : nat :=
  length (filter (fun a => a = Signal) out).

Definition closes (out : list action) : nat :=
  length (filter (fun a => a = Close) out).

(** The goroutine has returned. *)
Definition finished (w : watcher) : nat :=
  match at_ w with Finished => 1%nat | _ => 0%nat end.

(** A signal whose hand-off the consumer has not taken yet. *)
Definition pending (w : watcher) : nat :=
  match at_ w with Sending => 1%nat | _ => 0%nat end.

(** An endless schedule, read up to its [n]-th observation. *)
Definition upto (schedule : nat -> obs) (n : nat) : list obs :=
  schedule <$> seq 0 n.

(** The sink is closed somewhere along [schedule]. *)
Definition eventually_closes (d : Docker) (c : ctx_state) (schedule : nat -> obs) : Prop :=
  exists n w out, run d (Events c) (upto schedule n) = Some (w, out) /\ Close ∈ out.

(** ** A regular-expression package to run the model on

    It accepts an expression when its parentheses balance (a character
    after a backslash is skipped) and reports an unbalanced parenthesis
    with the message of Go's parser. *)

Fixpoint parens (s : string) (depth : nat) : option nat :=
  match s with
  | EmptyString => Some depth
  | String "\"%char (String _ s') => parens s' depth
  | String "("%char s' => parens s' (S depth)
  | String ")"%char s' => match depth with
                     | O => None
                     | S depth' => parens s' depth'
                     end
  | String _ s' => parens s' depth
  end.

Record sample_re : Type := { source : string }.

Definition sample_Compile (expr : string) : sample_re + error :=
  match parens expr 0 with
  | Some O => inl {| source := expr |}
  | Some (S _) =>
      inr (errorString ("error parsing regexp: missing closing ): `" +:+ expr +:+ "`"))
  | None =>
      inr (errorString ("error parsing regexp: unexpected ): `" +:+ expr +:+ "`"))
  end.

Definition sample_regexp : RegexpPkg.
Proof.
  refine {| Regexp := sample_re; Compile := sample_Compile; String_ := source |}.
  intros expr re. unfold sample_Compile.
  destruct (parens expr 0) as [[|k]|]; intros E; inversion E; reflexivity.
Defined.

(** ** Sample inventories *)

Definition stub (containers : list dc.APIContainers) : DockerClient :=
  {| ListContainers := fun _ => (containers, None) |}.

Definition on_bridge (ip : string) : dc.NetworkList :=
  {| dc.Networks := {[ "bridge" := {| dc.IPAddress := ip |} ]} |}.

Definition foo_container (labels : gmap string string) : dc.APIContainers :=
  {| dc.ID := "4f1c0a77d2e9";
     dc.Names := ["/foo"];
     dc.Status := "start";
     dc.Created := 1600000000000;
     dc.Ports := [ {| dc.PrivatePort := 9000 |}; {| dc.PrivatePort := 9443 |} ];
     dc.Labels := labels;
     dc.ContainerNetworks := on_bridge "10.0.0.5" |}.

Definition bar_container (labels : gmap string string) : dc.APIContainers :=
  {| dc.ID := "a93b55c0e1f2";
     dc.Names := ["/bar"];
     dc.Status := "restart";
     dc.Created := 1600000500000;
     dc.Ports := [ {| dc.PrivatePort := 8080 |} ];
     dc.Labels := labels;
     dc.ContainerNetworks := on_bridge "10.0.0.6" |}.

Definition special_labels : gmap string string :=
  {[ "dpx.server" := "x.example.com";
     "dpx.route" := "^/special/(.*)";
     "dpx.dest" := "/v2" ]}.

Definition broken_labels : gmap string string := {[ "dpx.route" := "^/broken/(.*" ]}.

(** What the sample package answers for the pattern of [broken_labels]. *)
Definition broken_error : error :=
  withMessage
    (errorString "error parsing regexp: missing closing ): `^/broken/(.*`")
    "invalid src regex ^/broken/(.*".

(** Members that one of the checks of [listContainers] drops. *)
Definition exited_container : dc.APIContainers :=
  {| dc.ID := "0d0d0d0d0d0d"; dc.Names := ["/old"]; dc.Status := "exited";
     dc.Created := 0; dc.Ports := [ {| dc.PrivatePort := 80 |} ];
     dc.Labels := ∅; dc.ContainerNetworks := on_bridge "10.0.0.7" |}.

Definition hidden_container : dc.APIContainers :=
  {| dc.ID := "1e1e1e1e1e1e"; dc.Names := ["/reproxy"]; dc.Status := "start";
     dc.Created := 0; dc.Ports := [ {| dc.PrivatePort := 80 |} ];
     dc.Labels := ∅; dc.ContainerNetworks := on_bridge "10.0.0.8" |}.

Definition offnet_container : dc.APIContainers :=
  {| dc.ID := "2f2f2f2f2f2f"; dc.Names := ["/db"]; dc.Status := "start";
     dc.Created := 0; dc.Ports := [ {| dc.PrivatePort := 5432 |} ];
     dc.Labels := ∅;
     dc.ContainerNetworks :=
       {| dc.Networks := {[ "backend" := {| dc.IPAddress := "172.20.0.2" |} ]} |} |}.

Definition portless_container : dc.APIContainers :=
  {| dc.ID := "3a3a3a3a3a3a"; dc.Names := ["/job"]; dc.Status := "start";
     dc.Created := 0; dc.Ports := [];
     dc.Labels := ∅; dc.ContainerNetworks := on_bridge "10.0.0.9" |}.

Definition nameless_container (status : string) : dc.APIContainers :=
  {| dc.ID := "5b5b5b5b5b5b"; dc.Names := []; dc.Status := status;
     dc.Created := 0; dc.Ports := [ {| dc.PrivatePort := 80 |} ];
     dc.Labels := ∅; dc.ContainerNetworks := on_bridge "10.0.0.10" |}.

Definition provider (containers : list dc.APIContainers) : Docker :=
  {| Client := stub containers; Excludes := ["reproxy"]; Network := "bridge" |}.

(** ** Sample feeds *)

Definition event (type status name : string) : dc.APIEvents :=
  {| dc.Type_ := type; dc.EvStatus := status;
     dc.Actor := {| dc.Attributes := {[ "name" := name ]} |} |}.

(** The owner cancels the context, and the daemon refuses every
    subscription from then on. *)
Definition cancelled_then_refused (n : nat) : obs :=
  match n with
  | O => CtxCancel
  | S _ => Listener (Some (errorString "dial unix /var/run/docker.sock: connection refused"))
  end.

(** A day of the watcher: two events of which one is signalled, the feed
    breaks, the subscription fails once, and the owner cancels. *)
Definition sample_feed : list obs :=
  [ Listener None;
    FeedEvent (event "container" "start" "/foo");
    Taken;
    FeedEvent (event "network" "connect" "/foo");
    FeedEvent (event "container" "die" "reproxy");
    FeedEvent (event "container" "exec_start" "/foo");
    FeedClosed;
    Listener (Some Canceled);
    Listener None;
    CtxCancel;
    FeedEvent (event "container" "stop" "/foo");
    Taken;
    CtxDone ].

(** What the goroutine does on [sample_feed]. *)
Definition sample_trace : list action :=
  [ Log "[DEBUG] api event %+v"; Log "[INFO] new event %+v"; Signal;
    Log "[DEBUG] api event %+v"; Log "[DEBUG] container %s excluded";
    Log "[WARN] docker events listener failed, restarted, %v";
    Sleep 100000000;
    Log "[WARN] docker events listener failed, restarted, %v";
    Sleep 100000000;
    Log "[DEBUG] api event %+v"; Log "[INFO] new event %+v"; Signal;
    Close ].

(** ** Further samples *)

(** On the configured network, with no address there. *)
Definition unaddressed_container : dc.APIContainers :=
  {| dc.ID := "6c6c6c6c6c6c"; dc.Names := ["/cache"]; dc.Status := "start";
     dc.Created := 0; dc.Ports := [ {| dc.PrivatePort := 6379 |} ];
     dc.Labels := ∅; dc.ContainerNetworks := on_bridge "" |}.

(** A client whose enumeration fails, whatever it returns beside the
    error. *)
Definition failing_provider : Docker :=
  {| Client := {| ListContainers := fun _ =>
                    ([nameless_container "start"],
                     Some (errorString "dial unix /var/run/docker.sock: connection refused")) |};
     Excludes := ["reproxy"]; Network := "bridge" |}.

Definition two_networks : gmap string dc.ContainerNetwork :=
  {[ "bridge" := {| dc.IPAddress := "10.0.0.5" |};
     "backend" := {| dc.IPAddress := "172.20.0.2" |} ]}.

(** ** Counting along a run *)

Definition taken (o : obs) : bool :=
  match o with Taken => true | _ => false end.

(** How often the consumer received from [eventsCh]. *)
Definition takes (os : list obs) : nat := length (filter (fun o => taken o) os).

Definition subscribed (o : obs) : bool :=
  match o with Listener _ => true | _ => false end.

(** How often [client.AddEventListener] was called. *)
Definition subscriptions (os : list obs) : nat :=
  length (filter (fun o => subscribed o) os).

(** How often the goroutine slept its 100ms. *)
Definition pauses (out : list action) : nat :=
  length (filter (fun a => a = Sleep (100 * Millisecond)) out).

(** The goroutine is about to call [client.AddEventListener]. *)
Definition subscribing (w : watcher) : nat :=
  match at_ w with Subscribing => 1%nat | _ => 0%nat end.

(** Every sleep of a trace lasts 100ms. *)
Definition fixed_pauses (out : list action) : Prop :=
  forall ns, Sleep ns ∈ out -> ns = 100 * Millisecond.

(** * Facts *)

(** ** The model on the samples *)

Example List_samples :
  @List sample_regexp
    (provider [exited_container; foo_container ∅; hidden_container; offnet_container;
               bar_container special_labels; portless_container]) =
  Returned
    ([ @discovery.Build_UrlMapper sample_regexp
         "*" {| source := "^/api/foo/(.*)" |} "http://10.0.0.5:9000/$1";
       @discovery.Build_UrlMapper sample_regexp
         "x.example.com" {| source := "^/special/(.*)" |} "http://10.0.0.6:8080/v2" ],
     None).
Proof. reflexivity. Qed.

Example List_broken_sample :
  @List sample_regexp (provider [bar_container ∅; foo_container broken_labels]) =
  Returned ([], Some broken_error).
Proof. reflexivity. Qed.

Example List_nameless_samples :
  @List sample_regexp (provider [nameless_container "start"]) = Panicked /\
  @List sample_regexp (provider [nameless_container "exited"]) = Returned ([], None).
Proof. split; reflexivity. Qed.

Example run_sample_feed :
  run (provider []) (Events Live) sample_feed =
  Some ({| ctx := Cancelled; at_ := Finished |}, sample_trace).
Proof. reflexivity. Qed.

(** A hand-off the consumer never takes: the goroutine can observe
    neither the feed nor the context from there. *)
Example run_blocked_hand_off :
  run (provider []) (Events Live)
      [Listener None; FeedEvent (event "container" "start" "/foo"); CtxCancel] =
    Some ({| ctx := Cancelled; at_ := Sending |},
          [Log "[DEBUG] api event %+v"; Log "[INFO] new event %+v"]) /\
  step (provider []) {| ctx := Cancelled; at_ := Sending |} CtxDone = None.
Proof. split; reflexivity. Qed.

(** ** Strings and vocabularies *)

Lemma contains_true e s : contains e s = true <-> e ∈ s.
Proof.
  induction s as [|a s IH]; simpl.
  - split; [discriminate | intros H; inversion H].
  - destruct (String.eqb_spec a e) as [->|Hne].
    + split; [intros _; constructor | reflexivity].
    + rewrite IH. split; [by constructor|].
      intros H. by inversion H; subst.
Qed.

Lemma contains_false e s : contains e s = false <-> e ∉ s.
Proof.
  rewrite <- contains_true. destruct (contains e s); split; intros; congruence.
Qed.

Lemma int_of_int64_id x : int64_range x -> int_of_int64 x = x.
Proof.
  unfold int64_range, int_of_int64, wrap64. intros Hx.
  rewrite Z.mod_small; lia.
Qed.

(** ** The network loop is a map lookup *)

Lemma network_ip_absent network entries :
  network ∉ entries.*1 -> network_ip network entries = "".
Proof.
  induction entries as [|[k v] rest IH]; simpl; [done|].
  intros Hnot. destruct (String.eqb_spec k network) as [->|Hne].
  - exfalso. apply Hnot. constructor.
  - apply IH. intros Hin. apply Hnot. by constructor.
Qed.

Lemma network_ip_present network v entries :
  NoDup entries.*1 -> (network, v) ∈ entries ->
  network_ip network entries = dc.IPAddress v.
Proof.
  induction entries as [|[k v'] rest IH]; simpl; intros Hnd Hin.
  - inversion Hin.
  - apply NoDup_cons in Hnd as [Hk Hnd].
    destruct (String.eqb_spec k network) as [->|Hne].
    + apply elem_of_cons in Hin as [Heq|Hin]; [congruence|].
      exfalso. apply Hk. apply list_elem_of_fmap. by exists (network, v).
    + apply elem_of_cons in Hin as [Heq|Hin]; [congruence|]. by apply IH.
Qed.

Lemma network_ip_lookup network (m : gmap string dc.ContainerNetwork) :
  network_ip network (map_to_list m) = default "" (dc.IPAddress <$> m !! network).
Proof.
  destruct (m !! network) as [v|] eqn:E; simpl.
  - apply network_ip_present; [apply NoDup_fst_map_to_list|].
    by apply elem_of_map_to_list.
  - apply network_ip_absent. intros Hin.
    apply list_elem_of_fmap in Hin as [[k v] [-> Hin]].
    apply elem_of_map_to_list in Hin. simpl in *. congruence.
Qed.

(** ** One turn of [listContainers] *)

Lemma inspect_not_up d c :
  contains (dc.Status c) upStatuses = false -> inspect d c = Returned None.
Proof. unfold inspect. by intros ->. Qed.

Lemma inspect_excluded d c name0 names :
  dc.Names c = name0 :: names ->
  contains (TrimPrefix name0 "/") (Excludes d) = true ->
  inspect d c = Returned None.
Proof.
  unfold inspect. intros -> Hex.
  destruct (contains (dc.Status c) upStatuses); simpl; [|done].
  by rewrite Hex.
Qed.

(** What a retained container looks like, and the snapshot taken of it. *)
Lemma inspect_Some d c ci :
  inspect d c = Returned (Some ci) <->
  contains (dc.Status c) upStatuses = true /\
  exists name0 names network p ports,
    dc.Names c = name0 :: names /\
    contains (TrimPrefix name0 "/") (Excludes d) = false /\
    dc.Networks (dc.ContainerNetworks c) !! Network d = Some network /\
    dc.IPAddress network <> "" /\
    dc.Ports c = p :: ports /\
    ci = {| Name := TrimPrefix name0 "/";
            ID := dc.ID c;
            TS := dc.Created c `quot` 1000;
            Labels := dc.Labels c;
            IP := dc.IPAddress network;
            Port := int_of_int64 (dc.PrivatePort p) |}.
Proof.
  unfold inspect. rewrite network_ip_lookup. unfold portExposed.
  destruct (contains (dc.Status c) upStatuses); simpl;
    [|split; [discriminate | intros [? _]; discriminate]].
  destruct (dc.Names c) as [|name0 names]; simpl.
  { split; [discriminate|]. intros [_ (?&?&?&?&?&?&_)]. discriminate. }
  destruct (contains (TrimPrefix name0 "/") (Excludes d)) eqn:Hex.
  { split; [discriminate|]. intros [_ (?&?&?&?&?&[= <- <-]&?&_)]. congruence. }
  destruct (dc.Networks (dc.ContainerNetworks c) !! Network d) as [nw|] eqn:Hnw; simpl.
  2:{ split; [discriminate|]. intros [_ (?&?&?&?&?&_&_&?&_)]. discriminate. }
  destruct (String.eqb_spec (dc.IPAddress nw) "") as [Hip|Hip].
  { split; [discriminate|]. intros [_ (?&?&?&?&?&_&_&[= <-]&?&_)]. done. }
  destruct (dc.Ports c) as [|p ports]; simpl.
  { split; [discriminate|]. intros [_ (?&?&?&?&?&_&_&_&_&?&_)]. discriminate. }
  split.
  - intros [= <-]. split; [done|]. by exists name0, names, nw, p, ports.
  - intros [_ (?&?&?&?&?&[= <- <-]&_&[= <-]&_&[= <- <-]&->)]. done.
Qed.

Lemma inspect_no_network d c ci :
  dc.Networks (dc.ContainerNetworks c) !! Network d = None ->
  inspect d c <> Returned (Some ci).
Proof.
  intros Hnone Hsome. apply inspect_Some in Hsome as [_ (?&?&?&?&?&_&_&?&_)].
  congruence.
Qed.

Lemma inspect_no_ports d c ci :
  dc.Ports c = [] -> inspect d c <> Returned (Some ci).
Proof.
  intros Hnone Hsome. apply inspect_Some in Hsome as [_ (?&?&?&?&?&_&_&_&_&?&_)].
  congruence.
Qed.

Lemma inspect_Panicked d c :
  inspect d c = Panicked <->
  contains (dc.Status c) upStatuses = true /\ dc.Names c = [].
Proof.
  unfold inspect.
  destruct (contains (dc.Status c) upStatuses); simpl;
    [|split; [discriminate | intros [? _]; discriminate]].
  destruct (dc.Names c) as [|name0 names]; simpl; [done|].
  split; [|intros [_ ?]; discriminate].
  destruct (contains _ (Excludes d)); [discriminate|].
  destruct (String.eqb _ ""); [discriminate|].
  destruct (portExposed c) as [port []]; discriminate.
Qed.

Lemma inspect_config d d' c : same_config d d' -> inspect d c = inspect d' c.
Proof. unfold inspect. by intros [-> ->]. Qed.

(** ** The loop of [listContainers] *)

Lemma scan_Returned d containers res :
  (forall c, c ∈ containers -> inspect d c <> Panicked) ->
  scan d containers res = Returned (res ++ containers ≫= kept d).
Proof.
  revert res. induction containers as [|c rest IH]; intros res Hok; simpl.
  - by rewrite app_nil_r.
  - assert (Hc : inspect d c <> Panicked) by (apply Hok; constructor).
    assert (Hrest : forall c', c' ∈ rest -> inspect d c' <> Panicked)
      by (intros c' Hin; apply Hok; by constructor).
    unfold kept at 1.
    destruct (inspect d c) as [[ci|]|]; [| |done].
    + rewrite IH by done. by rewrite <- app_assoc.
    + by rewrite IH.
Qed.

Lemma scan_Panicked d containers res c :
  c ∈ containers -> inspect d c = Panicked -> scan d containers res = Panicked.
Proof.
  revert res. induction containers as [|c' rest IH]; intros res Hin Hc.
  - inversion Hin.
  - simpl. apply elem_of_cons in Hin as [<-|Hin].
    + by rewrite Hc.
    + destruct (inspect d c') as [[ci|]|]; [by apply IH..|done].
Qed.

Lemma scan_Panicked_inv d containers res :
  scan d containers res = Panicked ->
  exists c, c ∈ containers /\ inspect d c = Panicked.
Proof.
  revert res. induction containers as [|c rest IH]; intros res; simpl; [done|].
  destruct (inspect d c) as [[ci|]|] eqn:Hc.
  - intros H. apply IH in H as (c' & Hin & Hc'). exists c'. split; [by constructor|done].
  - intros H. apply IH in H as (c' & Hin & Hc'). exists c'. split; [by constructor|done].
  - intros _. exists c. split; [constructor|done].
Qed.

Lemma scan_Returned_inv d containers res infos :
  scan d containers res = Returned infos ->
  infos = res ++ containers ≫= kept d /\
  forall c, c ∈ containers -> inspect d c <> Panicked.
Proof.
  intros Hscan.
  assert (Hok : forall c, c ∈ containers -> inspect d c <> Panicked).
  { intros c Hin Hc. rewrite (scan_Panicked d containers res c Hin Hc) in Hscan.
    discriminate. }
  rewrite (scan_Returned d containers res Hok) in Hscan. by injection Hscan as <-.
Qed.

Lemma scan_skip d pre c post res :
  inspect d c = Returned None ->
  scan d (pre ++ c :: post) res = scan d (pre ++ post) res.
Proof.
  intros Hskip. revert res. induction pre as [|c' pre IH]; intros res; simpl.
  - by rewrite Hskip.
  - destruct (inspect d c') as [[ci|]|]; by rewrite ?IH.
Qed.

Lemma scan_config d d' containers res :
  same_config d d' -> scan d containers res = scan d' containers res.
Proof.
  intros Hcfg. revert res. induction containers as [|c rest IH]; intros res; simpl; [done|].
  rewrite (inspect_config d d' c Hcfg).
  destruct (inspect d' c) as [[ci|]|]; by rewrite ?IH.
Qed.

Lemma kept_elem d c ci : ci ∈ kept d c <-> inspect d c = Returned (Some ci).
Proof.
  unfold kept. destruct (inspect d c) as [[ci'|]|].
  - rewrite list_elem_of_singleton. split; congruence.
  - split; [intros H; inversion H | discriminate].
  - split; [intros H; inversion H | discriminate].
Qed.

Lemma listContainers_enumerates d containers :
  enumerates d containers ->
  listContainers d =
    match scan d containers [] with
    | Panicked => Panicked
    | Returned res => Returned (res, None)
    end.
Proof. unfold enumerates, listContainers. by intros ->. Qed.

(** The snapshots are those of the containers whose turn reached the end,
    in the order of the enumeration. *)
Lemma listContainers_snapshots d containers infos err :
  enumerates d containers ->
  listContainers d = Returned (infos, err) ->
  err = None /\ infos = containers ≫= kept d /\
  forall c, c ∈ containers -> inspect d c <> Panicked.
Proof.
  intros Hen. rewrite (listContainers_enumerates _ _ Hen).
  destruct (scan d containers []) as [res|] eqn:Hscan; [|done].
  intros [= <- <-]. apply scan_Returned_inv in Hscan as [-> Hok]. done.
Qed.

Lemma listContainers_Returned d containers :
  enumerates d containers ->
  (forall c, c ∈ containers -> inspect d c <> Panicked) ->
  listContainers d = Returned (containers ≫= kept d, None).
Proof.
  intros Hen Hok. rewrite (listContainers_enumerates _ _ Hen).
  by rewrite scan_Returned.
Qed.

Lemma listContainers_Panicked d containers c :
  enumerates d containers -> c ∈ containers -> inspect d c = Panicked ->
  listContainers d = Panicked.
Proof.
  intros Hen Hin Hc. rewrite (listContainers_enumerates _ _ Hen).
  by rewrite (scan_Panicked d containers [] c Hin Hc).
Qed.

(** Dropping from the enumeration a container whose turn ends in
    [continue] changes nothing. *)
Lemma listContainers_skip d d' pre c post :
  enumerates d (pre ++ c :: post) ->
  enumerates d' (pre ++ post) ->
  same_config d d' ->
  inspect d c = Returned None ->
  listContainers d = listContainers d'.
Proof.
  intros Hen Hen' Hcfg Hskip.
  rewrite (listContainers_enumerates _ _ Hen), (listContainers_enumerates _ _ Hen').
  by rewrite (scan_skip d pre c post [] Hskip), (scan_config d d' _ _ Hcfg).
Qed.

(** The same for a container that contributes no snapshot, unless its
    turn panics. *)
Lemma listContainers_without d d' pre c post :
  enumerates d (pre ++ c :: post) ->
  enumerates d' (pre ++ post) ->
  same_config d d' ->
  (forall ci, inspect d c <> Returned (Some ci)) ->
  listContainers d = Panicked \/ listContainers d = listContainers d'.
Proof.
  intros Hen Hen' Hcfg Hdrop.
  destruct (inspect d c) as [[ci|]|] eqn:Hc.
  - by destruct (Hdrop ci).
  - right. by eapply listContainers_skip.
  - left. eapply listContainers_Panicked; [done| |done].
    rewrite elem_of_app, elem_of_cons. tauto.
Qed.

(** ** The loop of [List] *)

Lemma mappers_ok `{RegexpPkg} infos res :
  Forall compiles infos ->
  exists rules, mappers infos res = (res ++ rules, None) /\ Forall2 rule_of infos rules.
Proof.
  revert res. induction infos as [|ci rest IH]; intros res Hall; simpl.
  - exists []. by rewrite app_nil_r.
  - apply Forall_cons in Hall as [[re Hre] Hall]. rewrite Hre.
    destruct (IH (res ++ [ {| discovery.Server := server_of ci;
                              discovery.SrcMatch := re;
                              discovery.Dst := destURL_of ci |} ]) Hall)
      as (rules & -> & Hrules).
    eexists (_ :: rules). rewrite <- app_assoc. split; [done|].
    constructor; [|done]. repeat split; simpl. by apply Compile_String.
Qed.

Lemma mappers_fail `{RegexpPkg} pre ci post cause res :
  Forall compiles pre ->
  Compile (srcURL_of ci) = inr cause ->
  mappers (pre ++ ci :: post) res =
    ([], Some (Wrap cause ("invalid src regex " +:+ srcURL_of ci))).
Proof.
  intros Hall Hci. revert res. induction Hall as [|c pre [re Hre] _ IH]; intros res; simpl.
  - by rewrite Hci.
  - by rewrite Hre, IH.
Qed.

(** The first snapshot whose pattern does not compile. *)
Lemma first_failure `{RegexpPkg} infos :
  (exists ci e, ci ∈ infos /\ Compile (srcURL_of ci) = inr e) ->
  exists pre ci post cause,
    infos = pre ++ ci :: post /\ Forall compiles pre /\
    Compile (srcURL_of ci) = inr cause.
Proof.
  induction infos as [|c rest IH]; intros (ci & e & Hin & He).
  - inversion Hin.
  - destruct (Compile (srcURL_of c)) as [re|cause] eqn:Hc.
    + apply elem_of_cons in Hin as [->|Hin]; [congruence|].
      destruct IH as (pre & ci' & post & cause & -> & Hpre & Hci'); [by eauto|].
      exists (c :: pre), ci', post, cause. repeat split; [|done].
      constructor; [by exists re|done].
    + exists [], c, rest, cause. by repeat split.
Qed.

Lemma List_listContainers `{RegexpPkg} d d' :
  listContainers d = listContainers d' -> List d = List d'.
Proof. unfold List. by intros ->. Qed.

Lemma List_Panicked `{RegexpPkg} d :
  List d = Panicked <-> listContainers d = Panicked.
Proof.
  unfold List. destruct (listContainers d) as [[infos [err|]]|]; [| |done].
  - split; discriminate.
  - split; [|discriminate]. destruct (mappers infos []); discriminate.
Qed.

(** ** What a message names *)

Lemma strip_prefix_app sub rest : strip_prefix sub (sub +:+ rest) = Some rest.
Proof.
  induction sub as [|a sub IH]; simpl; [by destruct rest|].
  by rewrite Ascii.eqb_refl.
Qed.

Lemma has_infix_app sub before after : has_infix sub (before +:+ sub +:+ after) = true.
Proof.
  induction before as [|a before IH]; simpl.
  - destruct (sub +:+ after) eqn:E; simpl; rewrite <- E, strip_prefix_app; done.
  - rewrite IH. by destruct (strip_prefix sub _).
Qed.

(** ** Containers that [List] leaves out *)

(** C8: a container whose status string is outside the up vocabulary
    ([start], [restart]) ends its turn at the status re-check, whatever
    the client's own filter let through; the listing is the one of the
    enumeration without that container. *)
Theorem List_excludes_not_up `{RegexpPkg} d d' pre c post :
  enumerates d (pre ++ c :: post) ->
  enumerates d' (pre ++ post) ->
  same_config d d' ->
  contains (dc.Status c) upStatuses = false ->
  inspect d c = Returned None /\ List d = List d'.
Proof.
  intros Hen Hen' Hcfg Hst.
  pose proof (inspect_not_up d c Hst) as Hskip.
  split; [done|].
  apply List_listContainers. by eapply listContainers_skip.
Qed.

Lemma List_excludes_not_up_sample :
  inspect (provider [foo_container ∅; exited_container; bar_container ∅])
          exited_container = Returned None /\
  @List sample_regexp (provider [foo_container ∅; exited_container; bar_container ∅]) =
  @List sample_regexp (provider [foo_container ∅; bar_container ∅]).
Proof.
  apply (@List_excludes_not_up sample_regexp
           (provider [foo_container ∅; exited_container; bar_container ∅])
           (provider [foo_container ∅; bar_container ∅])
           [foo_container ∅] exited_container [bar_container ∅]).
  - reflexivity.
  - reflexivity.
  - split; reflexivity.
  - reflexivity.
Defined.

(** C9: a container whose first name, stripped of a leading [/], is in
    the exclusion set contributes nothing, whatever its status, networks,
    ports and labels; the listing is the one of the enumeration without
    it. *)
Theorem List_excludes_excluded_name `{RegexpPkg} d d' pre c post name0 names :
  enumerates d (pre ++ c :: post) ->
  enumerates d' (pre ++ post) ->
  same_config d d' ->
  dc.Names c = name0 :: names ->
  contains (TrimPrefix name0 "/") (Excludes d) = true ->
  inspect d c = Returned None /\ List d = List d'.
Proof.
  intros Hen Hen' Hcfg Hnames Hex.
  pose proof (inspect_excluded d c name0 names Hnames Hex) as Hskip.
  split; [done|].
  apply List_listContainers. by eapply listContainers_skip.
Qed.

Lemma List_excludes_excluded_name_sample :
  inspect (provider [hidden_container; foo_container special_labels])
          hidden_container = Returned None /\
  @List sample_regexp (provider [hidden_container; foo_container special_labels]) =
  @List sample_regexp (provider [foo_container special_labels]).
Proof.
  apply (@List_excludes_excluded_name sample_regexp
           (provider [hidden_container; foo_container special_labels])
           (provider [foo_container special_labels])
           [] hidden_container [foo_container special_labels] "/reproxy" []).
  - reflexivity.
  - reflexivity.
  - split; reflexivity.
  - reflexivity.
  - reflexivity.
Defined.

Lemma List_without `{RegexpPkg} d d' pre c post :
  enumerates d (pre ++ c :: post) ->
  enumerates d' (pre ++ post) ->
  same_config d d' ->
  (forall ci, inspect d c <> Returned (Some ci)) ->
  (List d = Panicked \/ List d = List d') /\
  (dc.Names c <> [] -> List d = List d').
Proof.
  intros Hen Hen' Hcfg Hdrop. split.
  - destruct (listContainers_without d d' pre c post Hen Hen' Hcfg Hdrop) as [Hp|Heq].
    + left. by apply List_Panicked.
    + right. by apply List_listContainers.
  - intros Hnames. apply List_listContainers.
    eapply listContainers_skip; [done..|].
    destruct (inspect d c) as [[ci|]|] eqn:Hc; [by destruct (Hdrop ci)|done|].
    apply inspect_Panicked in Hc as [_ Hc]. done.
Qed.

(** C6: a container with no entry for the configured network in its
    per-network address map yields no snapshot, hence no rule: the listing
    is the one of the enumeration without it (unless the listing panics on
    a nameless container, when there is no result at all). *)
Theorem List_excludes_off_network `{RegexpPkg} d d' pre c post :
  enumerates d (pre ++ c :: post) ->
  enumerates d' (pre ++ post) ->
  same_config d d' ->
  dc.Networks (dc.ContainerNetworks c) !! Network d = None ->
  (forall ci, inspect d c <> Returned (Some ci)) /\
  (List d = Panicked \/ List d = List d') /\
  (dc.Names c <> [] -> List d = List d').
Proof.
  intros Hen Hen' Hcfg Hnet.
  assert (Hdrop : forall ci, inspect d c <> Returned (Some ci))
    by (intros ci; by apply inspect_no_network).
  split; [done|]. by eapply List_without.
Qed.

Lemma List_excludes_off_network_sample :
  (forall ci, inspect (provider [foo_container ∅; offnet_container]) offnet_container
              <> Returned (Some ci)) /\
  (@List sample_regexp (provider [foo_container ∅; offnet_container]) = Panicked \/
   @List sample_regexp (provider [foo_container ∅; offnet_container]) =
   @List sample_regexp (provider [foo_container ∅])) /\
  (dc.Names offnet_container <> [] ->
   @List sample_regexp (provider [foo_container ∅; offnet_container]) =
   @List sample_regexp (provider [foo_container ∅])).
Proof.
  apply (@List_excludes_off_network sample_regexp
           (provider [foo_container ∅; offnet_container])
           (provider [foo_container ∅])
           [foo_container ∅] offnet_container []).
  - reflexivity.
  - reflexivity.
  - split; reflexivity.
  - reflexivity.
Defined.

(** C7: a container that reports no port mapping yields no snapshot, so
    the listing is the one of the enumeration without it; and the port of
    every snapshot is the private port of the first mapping its container
    reports. *)
Theorem List_first_private_port `{RegexpPkg} d containers :
  enumerates d containers ->
  (forall d' pre c post,
      containers = pre ++ c :: post ->
      enumerates d' (pre ++ post) ->
      same_config d d' ->
      dc.Ports c = [] ->
      (forall ci, inspect d c <> Returned (Some ci)) /\
      (List d = Panicked \/ List d = List d') /\
      (dc.Names c <> [] -> List d = List d')) /\
  (forall infos ci,
      listContainers d = Returned (infos, None) ->
      ci ∈ infos ->
      exists c p ports,
        c ∈ containers /\ inspect d c = Returned (Some ci) /\
        dc.Ports c = p :: ports /\
        Port ci = int_of_int64 (dc.PrivatePort p) /\
        (int64_range (dc.PrivatePort p) -> Port ci = dc.PrivatePort p)).
Proof.
  intros Hen. split.
  - intros d' pre c post -> Hen' Hcfg Hports.
    assert (Hdrop : forall ci, inspect d c <> Returned (Some ci))
      by (intros ci; by apply inspect_no_ports).
    split; [done|]. by eapply List_without.
  - intros infos ci Hlist Hin.
    destruct (listContainers_snapshots d containers infos None Hen Hlist)
      as (_ & -> & _).
    apply list_elem_of_bind in Hin as (c & Hci & Hc).
    apply kept_elem in Hci.
    pose proof Hci as Hsome.
    apply inspect_Some in Hsome as [_ (n0 & ns & nw & p & ports & _ & _ & _ & _ & Hp & ->)].
    exists c, p, ports. simpl. repeat split; try done.
    intros Hrange. by apply int_of_int64_id.
Qed.

Lemma List_first_private_port_sample :
  ((forall ci, inspect (provider [portless_container; foo_container ∅]) portless_container
               <> Returned (Some ci)) /\
   (@List sample_regexp (provider [portless_container; foo_container ∅]) = Panicked \/
    @List sample_regexp (provider [portless_container; foo_container ∅]) =
    @List sample_regexp (provider [foo_container ∅])) /\
   (dc.Names portless_container <> [] ->
    @List sample_regexp (provider [portless_container; foo_container ∅]) =
    @List sample_regexp (provider [foo_container ∅]))) /\
  (exists c p ports,
      c ∈ [portless_container; foo_container ∅] /\
      inspect (provider [portless_container; foo_container ∅]) c =
        Returned (Some {| ID := "4f1c0a77d2e9"; Name := "foo"; TS := 1600000000;
                          Labels := ∅; IP := "10.0.0.5"; Port := 9000 |}) /\
      dc.Ports c = p :: ports /\
      9000 = int_of_int64 (dc.PrivatePort p) /\
      (int64_range (dc.PrivatePort p) -> 9000 = dc.PrivatePort p)).
Proof.
  destruct (@List_first_private_port sample_regexp
              (provider [portless_container; foo_container ∅])
              [portless_container; foo_container ∅] eq_refl) as [Hdrop Hport].
  split.
  - apply (Hdrop (provider [foo_container ∅]) [] portless_container [foo_container ∅]).
    + reflexivity.
    + reflexivity.
    + split; reflexivity.
    + reflexivity.
  - apply (Hport [ {| ID := "4f1c0a77d2e9"; Name := "foo"; TS := 1600000000;
                      Labels := ∅; IP := "10.0.0.5"; Port := 9000 |} ]
                 {| ID := "4f1c0a77d2e9"; Name := "foo"; TS := 1600000000;
                    Labels := ∅; IP := "10.0.0.5"; Port := 9000 |}).
    + reflexivity.
    + apply list_elem_of_here.
Defined.

(** ** The unstated precondition on names *)

Lemma named_no_panic d containers :
  named containers -> forall c, c ∈ containers -> inspect d c <> Panicked.
Proof.
  intros Hnamed c Hin Hc. apply inspect_Panicked in Hc as [_ Hc].
  by apply (Hnamed c Hin).
Qed.

(** C10, as the code has it: [listContainers] reads [c.Names[0]] with no
    check of the length, for each enumerated container that has passed the
    status re-check; a container failing that re-check is skipped before
    the read.  A container that reaches the read with an empty list of
    names makes [List] panic; when every container with an up status has a
    name [List] returns; and [List] panics only if some container with an
    up status has none. *)
Theorem List_needs_names `{RegexpPkg} d containers :
  enumerates d containers ->
  (forall c, c ∈ containers ->
             contains (dc.Status c) upStatuses = true ->
             dc.Names c = [] ->
             dc.Names c !! 0%nat = None /\ List d = Panicked) /\
  ((forall c, c ∈ containers ->
              contains (dc.Status c) upStatuses = true -> dc.Names c <> []) ->
   exists rules err, List d = Returned (rules, err)) /\
  (List d = Panicked ->
   exists c, c ∈ containers /\
             contains (dc.Status c) upStatuses = true /\ dc.Names c = []) /\
  (forall c, contains (dc.Status c) upStatuses = false -> inspect d c = Returned None).
Proof.
  intros Hen. split_and!.
  - intros c Hin Hup Hnames. split; [by rewrite Hnames|].
    apply List_Panicked. eapply listContainers_Panicked; [done..|].
    by apply inspect_Panicked.
  - intros Hnamed. unfold List.
    rewrite (listContainers_Returned d containers Hen).
    + destruct (mappers _ []) as [rules err]. by exists rules, err.
    + intros c Hin Hc. apply inspect_Panicked in Hc as [Hup Hc].
      by apply (Hnamed c Hin Hup).
  - intros Hp. apply List_Panicked in Hp.
    rewrite (listContainers_enumerates _ _ Hen) in Hp.
    destruct (scan d containers []) as [res|] eqn:Hscan; [done|].
    apply scan_Panicked_inv in Hscan as (c & Hin & Hc).
    apply inspect_Panicked in Hc as [Hup Hc]. by exists c.
  - intros c. apply inspect_not_up.
Qed.

Lemma List_needs_names_sample :
  (dc.Names (nameless_container "start") !! 0%nat = None /\
   @List sample_regexp (provider [foo_container ∅; nameless_container "start"]) = Panicked) /\
  (exists rules err,
      @List sample_regexp (provider [foo_container ∅; nameless_container "exited"]) =
      Returned (rules, err)).
Proof.
  split.
  - apply (proj1 (@List_needs_names sample_regexp
                    (provider [foo_container ∅; nameless_container "start"])
                    [foo_container ∅; nameless_container "start"] eq_refl)
             (nameless_container "start")).
    + apply list_elem_of_further, list_elem_of_here.
    + reflexivity.
    + reflexivity.
  - apply (proj1 (proj2 (@List_needs_names sample_regexp
                           (provider [foo_container ∅; nameless_container "exited"])
                           [foo_container ∅; nameless_container "exited"] eq_refl))).
    intros c Hin Hup.
    apply elem_of_cons in Hin as [->|Hin]; [discriminate|].
    apply list_elem_of_singleton in Hin as ->. discriminate.
Defined.

(** C10, as the spec has it, fails: the enumeration holds a container
    whose list of names is empty, and [List] is defined on it, because the
    container's status [exited] ends its turn before the names are read;
    the rule of the other container is returned. *)
Lemma List_nameless_not_up_returns :
  nameless_container "exited" ∈ [nameless_container "exited"; foo_container ∅] /\
  dc.Names (nameless_container "exited") = [] /\
  inspect (provider [nameless_container "exited"; foo_container ∅])
    (nameless_container "exited") = Returned None /\
  @List sample_regexp (provider [nameless_container "exited"; foo_container ∅]) =
    Returned
      ([ @discovery.Build_UrlMapper sample_regexp
           "*" {| source := "^/api/foo/(.*)" |} "http://10.0.0.5:9000/$1" ],
       None).
Proof. split_and!; [apply list_elem_of_here|reflexivity..]. Qed.

(** ** The rules of the retained containers *)

Lemma Forall2_elem_l {A B} (P : A -> B -> Prop) l k x :
  Forall2 P l k -> x ∈ l -> exists y, y ∈ k /\ P x y.
Proof.
  induction 1 as [|a b l k Hab _ IH]; intros Hin.
  - inversion Hin.
  - apply elem_of_cons in Hin as [->|Hin].
    + exists b. split; [constructor|done].
    + destruct (IH Hin) as (y & Hy & Hxy). exists y. split; [by constructor|done].
Qed.

(** With names everywhere and patterns that compile, [List] returns one
    rule per snapshot, in the order of the enumeration. *)
Lemma List_Returned `{RegexpPkg} d containers :
  enumerates d containers -> named containers -> routable d containers ->
  exists rules,
    List d = Returned (rules, None) /\ Forall2 rule_of (containers ≫= kept d) rules.
Proof.
  intros Hen Hnamed Hroutable. unfold List.
  rewrite (listContainers_Returned d containers Hen (named_no_panic d _ Hnamed)).
  destruct (mappers_ok (containers ≫= kept d) []) as (rules & -> & Hrules).
  - apply Forall_forall. intros ci Hin. by apply Hroutable.
  - by exists rules.
Qed.

Lemma List_rule_of `{RegexpPkg} d containers c ci :
  enumerates d containers -> named containers -> routable d containers ->
  c ∈ containers -> inspect d c = Returned (Some ci) ->
  exists rules rule,
    List d = Returned (rules, None) /\ rule ∈ rules /\ rule_of ci rule.
Proof.
  intros Hen Hnamed Hroutable Hin Hci.
  destruct (List_Returned d containers Hen Hnamed Hroutable) as (rules & HL & Hrules).
  destruct (Forall2_elem_l _ _ _ ci Hrules) as (rule & Hrule & Hof).
  - apply list_elem_of_bind. exists c. split; [by apply kept_elem|done].
  - by exists rules, rule.
Qed.

Lemma no_dpx_labels_lookup labels :
  no_dpx_labels labels ->
  labels !! "dpx.route" = None /\ labels !! "dpx.dest" = None /\
  labels !! "dpx.server" = None.
Proof. intros Hno. repeat split; by apply Hno. Qed.

(** C4: a retained container without [dpx.*] labels, named [foo], at
    10.0.0.5 on the configured network, whose first private port is 9000,
    gives the rule whose server is the wildcard, whose source pattern is
    the default one for [foo] (anchored [/api/foo/], then one capture group
    for the rest) and whose destination is [http://10.0.0.5:9000/$1]. *)
Theorem List_default_rule `{RegexpPkg} d containers c name0 names ports :
  enumerates d containers -> named containers -> routable d containers ->
  c ∈ containers ->
  contains (dc.Status c) upStatuses = true ->
  dc.Names c = name0 :: names ->
  TrimPrefix name0 "/" = "foo" ->
  contains "foo" (Excludes d) = false ->
  dc.Networks (dc.ContainerNetworks c) !! Network d =
    Some {| dc.IPAddress := "10.0.0.5" |} ->
  dc.Ports c = {| dc.PrivatePort := 9000 |} :: ports ->
  no_dpx_labels (dc.Labels c) ->
  exists rules rule,
    List d = Returned (rules, None) /\ rule ∈ rules /\
    discovery.Server rule = "*" /\
    String_ (discovery.SrcMatch rule) = "^/api/foo/(.*)" /\
    discovery.Dst rule = "http://10.0.0.5:9000/$1".
Proof.
  intros Hen Hnamed Hroutable Hin Hup Hnames Hfoo Hex Hnet Hports Hlabels.
  apply no_dpx_labels_lookup in Hlabels as (Hroute & Hdest & Hserver).
  set (ci := {| Name := "foo"; ID := dc.ID c; TS := dc.Created c `quot` 1000;
                Labels := dc.Labels c; IP := "10.0.0.5"; Port := 9000 |}).
  assert (Hci : inspect d c = Returned (Some ci)).
  { apply inspect_Some. split; [done|].
    exists name0, names, {| dc.IPAddress := "10.0.0.5" |}, {| dc.PrivatePort := 9000 |}, ports.
    rewrite Hfoo. repeat split; done. }
  destruct (List_rule_of d containers c ci Hen Hnamed Hroutable Hin Hci)
    as (rules & rule & HL & Hrule & Hs & Hsrc & Hdst).
  exists rules, rule. repeat split; [done..| | |].
  - rewrite Hs. unfold server_of. simpl. by rewrite Hserver.
  - rewrite Hsrc. unfold srcURL_of. simpl. by rewrite Hroute.
  - rewrite Hdst. unfold destURL_of. simpl. by rewrite Hdest.
Qed.

Lemma List_default_rule_sample :
  exists rules rule,
    @List sample_regexp (provider [bar_container special_labels; foo_container ∅]) =
      Returned (rules, None) /\ rule ∈ rules /\
    discovery.Server rule = "*" /\
    String_ (discovery.SrcMatch rule) = "^/api/foo/(.*)" /\
    discovery.Dst rule = "http://10.0.0.5:9000/$1".
Proof.
  apply (@List_default_rule sample_regexp
           (provider [bar_container special_labels; foo_container ∅])
           [bar_container special_labels; foo_container ∅]
           (foo_container ∅) "/foo" [] [ {| dc.PrivatePort := 9443 |} ]).
  - reflexivity.
  - intros c Hin.
    apply elem_of_cons in Hin as [->|Hin]; [discriminate|].
    apply list_elem_of_singleton in Hin as ->. discriminate.
  - intros ci Hin. vm_compute in Hin.
    apply elem_of_cons in Hin as [->|Hin]; [by eexists|].
    apply list_elem_of_singleton in Hin as ->. by eexists.
  - apply list_elem_of_further, list_elem_of_here.
  - reflexivity.
  - reflexivity.
  - reflexivity.
  - reflexivity.
  - reflexivity.
  - reflexivity.
  - intros k _. apply lookup_empty.
Defined.

(** C3: with labels [dpx.server], [dpx.route] and [dpx.dest] the same
    container gives the rule with the label's server, the label's pattern
    verbatim, and the destination [http://10.0.0.5:9000/v2]: the suffix
    takes the place of the default path and brings no [$1]. *)
Theorem List_labelled_rule `{RegexpPkg} d containers c name0 names ports :
  enumerates d containers -> named containers -> routable d containers ->
  c ∈ containers ->
  contains (dc.Status c) upStatuses = true ->
  dc.Names c = name0 :: names ->
  TrimPrefix name0 "/" = "foo" ->
  contains "foo" (Excludes d) = false ->
  dc.Networks (dc.ContainerNetworks c) !! Network d =
    Some {| dc.IPAddress := "10.0.0.5" |} ->
  dc.Ports c = {| dc.PrivatePort := 9000 |} :: ports ->
  dc.Labels c !! "dpx.server" = Some "x.example.com" ->
  dc.Labels c !! "dpx.route" = Some "^/special/(.*)" ->
  dc.Labels c !! "dpx.dest" = Some "/v2" ->
  exists rules rule,
    List d = Returned (rules, None) /\ rule ∈ rules /\
    discovery.Server rule = "x.example.com" /\
    String_ (discovery.SrcMatch rule) = "^/special/(.*)" /\
    discovery.Dst rule = "http://10.0.0.5:9000/v2" /\
    has_infix "$1" (discovery.Dst rule) = false.
Proof.
  intros Hen Hnamed Hroutable Hin Hup Hnames Hfoo Hex Hnet Hports
    Hserver Hroute Hdest.
  set (ci := {| Name := "foo"; ID := dc.ID c; TS := dc.Created c `quot` 1000;
                Labels := dc.Labels c; IP := "10.0.0.5"; Port := 9000 |}).
  assert (Hci : inspect d c = Returned (Some ci)).
  { apply inspect_Some. split; [done|].
    exists name0, names, {| dc.IPAddress := "10.0.0.5" |}, {| dc.PrivatePort := 9000 |}, ports.
    rewrite Hfoo. repeat split; done. }
  destruct (List_rule_of d containers c ci Hen Hnamed Hroutable Hin Hci)
    as (rules & rule & HL & Hrule & Hs & Hsrc & Hdst).
  assert (Hd : discovery.Dst rule = "http://10.0.0.5:9000/v2").
  { rewrite Hdst. unfold destURL_of. simpl. by rewrite Hdest. }
  exists rules, rule. repeat split; [done..| | | |].
  - rewrite Hs. unfold server_of. simpl. by rewrite Hserver.
  - rewrite Hsrc. unfold srcURL_of. simpl. by rewrite Hroute.
  - done.
  - by rewrite Hd.
Qed.

Lemma List_labelled_rule_sample :
  exists rules rule,
    @List sample_regexp (provider [foo_container special_labels; bar_container ∅]) =
      Returned (rules, None) /\ rule ∈ rules /\
    discovery.Server rule = "x.example.com" /\
    String_ (discovery.SrcMatch rule) = "^/special/(.*)" /\
    discovery.Dst rule = "http://10.0.0.5:9000/v2" /\
    has_infix "$1" (discovery.Dst rule) = false.
Proof.
  apply (@List_labelled_rule sample_regexp
           (provider [foo_container special_labels; bar_container ∅])
           [foo_container special_labels; bar_container ∅]
           (foo_container special_labels) "/foo" [] [ {| dc.PrivatePort := 9443 |} ]).
  - reflexivity.
  - intros c Hin.
    apply elem_of_cons in Hin as [->|Hin]; [discriminate|].
    apply list_elem_of_singleton in Hin as ->. discriminate.
  - intros ci Hin. vm_compute in Hin.
    apply elem_of_cons in Hin as [->|Hin]; [by eexists|].
    apply list_elem_of_singleton in Hin as ->. by eexists.
  - apply list_elem_of_here.
  - reflexivity.
  - reflexivity.
  - reflexivity.
  - reflexivity.
  - reflexivity.
  - reflexivity.
  - reflexivity.
  - reflexivity.
  - reflexivity.
Defined.

(** ** A pattern that does not compile *)

Lemma append_assoc (a b c : string) : (a +:+ b) +:+ c = a +:+ b +:+ c.
Proof. induction a as [|x a IH]; [done|]. change (String x ((a +:+ b) +:+ c) = String x (a +:+ b +:+ c)). by f_equal. Qed.

Lemma identifies_pattern cause srcURL :
  identifies (Wrap cause ("invalid src regex " +:+ srcURL)) srcURL = true.
Proof.
  unfold identifies, Wrap. cbn [Error].
  rewrite (append_assoc "invalid src regex " srcURL).
  apply has_infix_app.
Qed.

(** C1, as the code has it: when the pattern of some retained container
    does not compile, [List] returns no rule and the compile error wrapped
    as "invalid src regex <pattern>", for the first such container in the
    enumeration; the message contains the pattern, and the container only
    as far as the pattern does. *)
Theorem List_invalid_pattern `{RegexpPkg} d infos :
  listContainers d = Returned (infos, None) ->
  (exists ci e, ci ∈ infos /\ Compile (srcURL_of ci) = inr e) ->
  exists pre ci post cause,
    infos = pre ++ ci :: post /\ Forall compiles pre /\
    Compile (srcURL_of ci) = inr cause /\
    List d = Returned ([], Some (Wrap cause ("invalid src regex " +:+ srcURL_of ci))) /\
    Error (Wrap cause ("invalid src regex " +:+ srcURL_of ci)) =
      "invalid src regex " +:+ srcURL_of ci +:+ ": " +:+ Error cause /\
    identifies (Wrap cause ("invalid src regex " +:+ srcURL_of ci)) (srcURL_of ci) = true.
Proof.
  intros Hlist Hbad.
  destruct (first_failure infos Hbad) as (pre & ci & post & cause & -> & Hpre & Hci).
  exists pre, ci, post, cause. split_and!; [done..| | |].
  - unfold List. rewrite Hlist. by rewrite (mappers_fail pre ci post cause [] Hpre Hci).
  - unfold Wrap. cbn [Error]. by rewrite (append_assoc "invalid src regex ").
  - apply identifies_pattern.
Qed.

Lemma List_invalid_pattern_sample :
  exists pre ci post cause,
    [ {| ID := "a93b55c0e1f2"; Name := "bar"; TS := 1600000500; Labels := ∅;
         IP := "10.0.0.6"; Port := 8080 |};
      {| ID := "4f1c0a77d2e9"; Name := "foo"; TS := 1600000000;
         Labels := broken_labels; IP := "10.0.0.5"; Port := 9000 |} ]
      = pre ++ ci :: post /\
    Forall (@compiles sample_regexp) pre /\
    sample_Compile (@srcURL_of ci) = inr cause /\
    @List sample_regexp (provider [bar_container ∅; foo_container broken_labels]) =
      Returned ([], Some (Wrap cause ("invalid src regex " +:+ srcURL_of ci))) /\
    Error (Wrap cause ("invalid src regex " +:+ srcURL_of ci)) =
      "invalid src regex " +:+ srcURL_of ci +:+ ": " +:+ Error cause /\
    identifies (Wrap cause ("invalid src regex " +:+ srcURL_of ci)) (srcURL_of ci) = true.
Proof.
  apply (@List_invalid_pattern sample_regexp
           (provider [bar_container ∅; foo_container broken_labels])).
  - reflexivity.
  - exists {| ID := "4f1c0a77d2e9"; Name := "foo"; TS := 1600000000;
              Labels := broken_labels; IP := "10.0.0.5"; Port := 9000 |}.
    eexists. split; [apply list_elem_of_further, list_elem_of_here | reflexivity].
Defined.

(** C1, as the spec has it, fails: the error for a broken [dpx.route] is
    the same for the container [foo] and for the container [bar], and its
    message contains neither the name nor the ID of the container. *)
Lemma List_invalid_pattern_unnamed :
  @List sample_regexp (provider [foo_container broken_labels]) =
    Returned ([], Some broken_error) /\
  @List sample_regexp (provider [bar_container broken_labels]) =
    Returned ([], Some broken_error) /\
  Error broken_error =
    "invalid src regex ^/broken/(.*: error parsing regexp: missing closing ): `^/broken/(.*`" /\
  identifies broken_error "^/broken/(.*" = true /\
  identifies broken_error "foo" = false /\
  identifies broken_error "4f1c0a77d2e9" = false.
Proof. repeat split; reflexivity. Qed.

(** ** The watcher, one observation at a time *)

Lemma signals_app out out' : signals (out ++ out') = (signals out + signals out')%nat.
Proof. unfold signals. by rewrite filter_app, length_app. Qed.

Lemma closes_app out out' : closes (out ++ out') = (closes out + closes out')%nat.
Proof. unfold closes. by rewrite filter_app, length_app. Qed.

Lemma closes_elem out : Close ∈ out <-> closes out <> 0%nat.
Proof.
  unfold closes. induction out as [|a out IH]; simpl.
  - split; [intros H; inversion H | done].
  - rewrite elem_of_cons, filter_cons. destruct (decide (a = Close)) as [->|Hne]; simpl.
    + split; [lia | by left].
    + rewrite <- IH. split; [intros [?|?]; [congruence|done] | by right].
Qed.

(** Any error but the two of the context: log, sleep 100ms, subscribe
    again. *)
Lemma events_returned_restart err w :
  err <> Canceled -> err <> DeadlineExceeded ->
  events_returned err w = (goto Subscribing w, restarted).
Proof.
  intros H1 H2. unfold events_returned.
  by rewrite !bool_decide_eq_false_2.
Qed.

Lemma events_returned_cases err w :
  events_returned err w = (goto Finished w, [Close]) /\
    (err = Canceled \/ err = DeadlineExceeded) \/
  events_returned err w = (goto Subscribing w, restarted) /\
    err <> Canceled /\ err <> DeadlineExceeded.
Proof.
  destruct (decide (err = Canceled)) as [->|H1]; [left; by split; [|left]|].
  destruct (decide (err = DeadlineExceeded)) as [->|H2]; [left; by split; [|right]|].
  right. split; [by apply events_returned_restart|done].
Qed.

Lemma signalled_spec d ev :
  signalled d ev = true <->
  dc.Type_ ev = "container" /\
  (dc.EvStatus ev ∈ upStatuses \/ dc.EvStatus ev ∈ downStatuses) /\
  TrimPrefix (actor_name ev) "/" ∉ Excludes d.
Proof.
  unfold signalled.
  rewrite !andb_true_iff, orb_true_iff, negb_true_iff, String.eqb_eq.
  rewrite !contains_true, contains_false. tauto.
Qed.

(** The [select] case of an event: the goroutine goes to the hand-off
    exactly when the three tests pass, and hands nothing off by itself. *)
Lemma received_spec d ev w :
  exists out,
    received d ev w = (if signalled d ev then goto Sending w else w, out) /\
    signals out = 0%nat /\ closes out = 0%nat.
Proof.
  unfold received, signalled.
  destruct (String.eqb (dc.Type_ ev) "container"); cbn [negb andb orb];
    [|eexists; split_and!; reflexivity].
  destruct (contains (dc.EvStatus ev) upStatuses); cbn [negb andb orb].
  - destruct (contains _ (Excludes d)); cbn [negb]; eexists; split_and!; reflexivity.
  - destruct (contains (dc.EvStatus ev) downStatuses); cbn [negb andb orb];
      [|eexists; split_and!; reflexivity].
    destruct (contains _ (Excludes d)); cbn [negb]; eexists; split_and!; reflexivity.
Qed.

(** ** Runs of the watcher *)

Lemma run_cons d w o rest w'' out'' :
  run d w (o :: rest) = Some (w'', out'') <->
  exists w' out out',
    step d w o = Some (w', out) /\ run d w' rest = Some (w'', out') /\
    out'' = out ++ out'.
Proof.
  simpl. split.
  - destruct (step d w o) as [[w' out]|]; [|done].
    destruct (run d w' rest) as [[w3 out']|] eqn:Hrun; [|done].
    intros [= <- <-]. by exists w', out, out'.
  - intros (w' & out & out' & -> & -> & ->). done.
Qed.

(** The error of a fired context closes the sink and ends the goroutine. *)
Lemma events_returned_ctx c err w :
  ctx_Err c = Some err -> events_returned err w = (goto Finished w, [Close]).
Proof. destruct c; intros [= <-]; reflexivity. Qed.

Lemma step_signals d w o w' out :
  step d w o = Some (w', out) ->
  (signals out + pending w')%nat =
  (pending w + match o with
               | FeedEvent ev => if signalled d ev then 1 else 0
               | _ => 0
               end)%nat.
Proof.
  destruct w as [c p]. unfold step. cbn [at_].
  destruct o as [| |[err|]| |ev| |], p; try discriminate; intros Hstep; simplify_eq; try reflexivity.
  - destruct (events_returned_cases (Wrap err "can't add even listener")
                {| ctx := c; at_ := Subscribing |}) as [[Hr _]|[Hr _]];
      rewrite Hr in Hstep; by simplify_eq.
  - cbn [ctx] in Hstep. destruct (ctx_Err c) as [err|] eqn:Hc; [|done].
    rewrite (events_returned_ctx c err _ Hc) in Hstep. by simplify_eq.
  - destruct (received_spec d ev {| ctx := c; at_ := Selecting |}) as (lg & Hr & Hs & _).
    rewrite Hr in Hstep. simplify_eq. rewrite Hs. by destruct (signalled d ev).
  - destruct (events_returned_cases (errorString "events closed")
                {| ctx := c; at_ := Selecting |}) as [[Hr _]|[Hr _]];
      rewrite Hr in Hstep; by simplify_eq.
Qed.

Lemma step_closes d w o w' out :
  step d w o = Some (w', out) ->
  (closes out + finished w)%nat = finished w' /\
  (finished w = 0%nat -> finished w' = 1%nat -> o = CtxDone /\ ctx w' <> Live) /\
  (o = CtxDone -> finished w' = 1%nat /\ finished w = 0%nat) /\
  (ctx w <> Live -> ctx w' = ctx w).
Proof.
  destruct w as [c p]. unfold step. cbn [at_].
  destruct o as [| |[err|]| |ev| |], p; try discriminate; intros Hstep; simplify_eq;
    try (split_and!; (reflexivity || discriminate || (by destruct c))).
  - destruct (events_returned_cases (Wrap err "can't add even listener")
                {| ctx := c; at_ := Subscribing |}) as [[Hr [?|?]]|[Hr _]];
      [done..|].
    rewrite Hr in Hstep. simplify_eq. split_and!; (reflexivity || discriminate).
  - cbn [ctx] in Hstep. destruct (ctx_Err c) as [err|] eqn:Hc; [|done].
    rewrite (events_returned_ctx c err _ Hc) in Hstep. simplify_eq.
    split_and!; try (reflexivity || discriminate || done).
    + intros _ _. split; [done|]. by destruct c.
  - destruct (received_spec d ev {| ctx := c; at_ := Selecting |}) as (lg & Hr & _ & Hc).
    rewrite Hr in Hstep. simplify_eq. rewrite Hc.
    destruct (signalled d ev); split_and!; (reflexivity || discriminate).
  - destruct (events_returned_cases (errorString "events closed")
                {| ctx := c; at_ := Selecting |}) as [[Hr [?|?]]|[Hr _]];
      [done..|].
    rewrite Hr in Hstep. simplify_eq. split_and!; (reflexivity || discriminate).
Qed.

Lemma finished_le w : (finished w <= 1)%nat.
Proof. unfold finished. destruct (at_ w); lia. Qed.

Lemma finished_at w : finished w = 1%nat <-> at_ w = Finished.
Proof. unfold finished. by destruct (at_ w). Qed.

(** Signals handed off, plus the one being handed off, count the events
    that passed the three tests. *)
Lemma run_signals d os : forall w w' out,
  run d w os = Some (w', out) ->
  (signals out + pending w')%nat =
  (pending w + length (filter (fun ev => signalled d ev) (feed_events os)))%nat.
Proof.
  induction os as [|o rest IH]; intros w w'' out''.
  - intros [= <- <-]. simpl. lia.
  - rewrite run_cons. intros (w' & out & out' & Hstep & Hrun & ->).
    apply IH in Hrun. apply step_signals in Hstep. rewrite signals_app.
    destruct o as [| |r| |ev| |]; simpl; try lia.
    rewrite filter_cons. destruct (signalled d ev); simpl; lia.
Qed.

Lemma run_ctx d os : forall w w' out,
  run d w os = Some (w', out) -> ctx w <> Live -> ctx w' = ctx w.
Proof.
  induction os as [|o rest IH]; intros w w'' out''.
  - by intros [= <- <-].
  - rewrite run_cons. intros (w' & out & out' & Hstep & Hrun & ->) Hlive.
    apply step_closes in Hstep as (_ & _ & _ & Hctx).
    rewrite <- (Hctx Hlive). apply (IH _ _ _ Hrun). by rewrite (Hctx Hlive).
Qed.

(** The sink is closed when the goroutine returns, and the goroutine
    returns when [select] takes the case of the context. *)
Lemma run_closes d os : forall w w' out,
  run d w os = Some (w', out) ->
  (closes out + finished w)%nat = finished w' /\
  (CtxDone ∈ os -> finished w = 0%nat /\ finished w' = 1%nat) /\
  (finished w = 0%nat -> finished w' = 1%nat -> CtxDone ∈ os /\ ctx w' <> Live).
Proof.
  induction os as [|o rest IH]; intros w w'' out''.
  - intros [= <- <-]. split_and!; [done| |lia]. intros H. inversion H.
  - rewrite run_cons. intros (w' & out & out' & Hstep & Hrun & ->).
    pose proof (run_ctx d rest _ _ _ Hrun) as Hkeep.
    apply IH in Hrun as (Hcount' & Hdone' & Hfin').
    apply step_closes in Hstep as (Hcount & Hfin & Hdone & _).
    pose proof (finished_le w''). pose proof (finished_le w').
    rewrite closes_app. split_and!.
    + lia.
    + rewrite elem_of_cons. intros [<-|Hin].
      * destruct Hdone as [? ?]; [done|]. lia.
      * destruct (Hdone' Hin). lia.
    + intros Hw Hw''. rewrite elem_of_cons.
      destruct (decide (finished w' = 1%nat)) as [Hw'|Hw'].
      * destruct (Hfin Hw Hw') as [-> Hlive]. split; [by left|].
        by rewrite (Hkeep Hlive).
      * destruct Hfin' as [Hin Hlive]; [lia|done|]. split; [by right|done].
Qed.

(** ** Signals *)

(** C5: along any run of the watcher, the signals handed to the consumer,
    plus the one whose hand-off is still blocked, are exactly as many as
    the received events that are of type [container], have a status of the
    up or the down vocabulary, and name a container outside the exclusion
    set; every other event adds nothing. *)
Theorem events_one_signal_per_event d c os w out :
  run d (Events c) os = Some (w, out) ->
  (signals out + pending w)%nat =
    length (filter (fun ev => signalled d ev) (feed_events os)) /\
  (forall ev,
      signalled d ev = true <->
      dc.Type_ ev = "container" /\
      (dc.EvStatus ev ∈ ["start"; "restart"] \/
       dc.EvStatus ev ∈ ["die"; "destroy"; "stop"; "pause"]) /\
      TrimPrefix (actor_name ev) "/" ∉ Excludes d).
Proof.
  intros Hrun. split.
  - by rewrite (run_signals d os _ _ _ Hrun).
  - intros ev. apply signalled_spec.
Qed.

Lemma events_one_signal_per_event_sample :
  (signals sample_trace + pending {| ctx := Cancelled; at_ := Finished |})%nat =
    length (filter (fun ev => signalled (provider []) ev) (feed_events sample_feed)) /\
  (forall ev,
      signalled (provider []) ev = true <->
      dc.Type_ ev = "container" /\
      (dc.EvStatus ev ∈ ["start"; "restart"] \/
       dc.EvStatus ev ∈ ["die"; "destroy"; "stop"; "pause"]) /\
      TrimPrefix (actor_name ev) "/" ∉ Excludes (provider [])).
Proof.
  apply (events_one_signal_per_event (provider []) Live sample_feed
           {| ctx := Cancelled; at_ := Finished |} sample_trace).
  reflexivity.
Defined.

(** ** Closing the sink *)

(** C2, as the code has it: the sink is closed exactly when [select]
    takes the case of the context, which needs the context cancelled or
    expired, and then the goroutine returns, so it closes at most once;
    every error of [d.events] other than the two of the context (a failed
    subscription, even one failing with a context error of the client,
    and a closed feed among them) is followed by the warning, the pause of
    100ms and a new subscription, with the sink left open. *)
Theorem Events_closes_on_context d c os w out :
  run d (Events c) os = Some (w, out) ->
  (Close ∈ out <-> CtxDone ∈ os) /\
  (Close ∈ out <-> at_ w = Finished) /\
  (Close ∈ out -> ctx w = Cancelled \/ ctx w = Expired) /\
  (closes out <= 1)%nat /\
  (at_ w = Selecting -> ctx w <> Live ->
   step d w CtxDone = Some (goto Finished w, [Close])) /\
  (forall err, err <> Canceled -> err <> DeadlineExceeded ->
               events_returned err w = (goto Subscribing w, restarted)) /\
  (forall err, at_ w = Subscribing ->
               step d w (Listener (Some err)) = Some (goto Subscribing w, restarted)) /\
  (at_ w = Selecting -> step d w FeedClosed = Some (goto Subscribing w, restarted)) /\
  restarted = [Log "[WARN] docker events listener failed, restarted, %v";
               Sleep (100 * Millisecond)].
Proof.
  intros Hrun.
  destruct (run_closes d os _ _ _ Hrun) as (Hcount & Hdone & Hfin).
  change (finished (Events c)) with 0%nat in *.
  pose proof (finished_le w) as Hle.
  assert (Hclose : Close ∈ out <-> finished w = 1%nat).
  { rewrite closes_elem. lia. }
  split_and!.
  - rewrite Hclose. split; [intros Hw; by apply Hfin | intros Hin; by apply Hdone].
  - by rewrite Hclose, finished_at.
  - rewrite Hclose. intros Hw. destruct (Hfin eq_refl Hw) as [_ Hlive].
    destruct (ctx w); [done|by left|by right].
  - lia.
  - intros Hat Hlive. unfold step. rewrite Hat.
    destruct (ctx_Err (ctx w)) as [err|] eqn:Herr; [|by destruct (ctx w)].
    by rewrite (events_returned_ctx _ _ _ Herr).
  - intros err. apply events_returned_restart.
  - intros err Hat. unfold step. rewrite Hat.
    by rewrite events_returned_restart.
  - intros Hat. unfold step. rewrite Hat. by rewrite events_returned_restart.
  - reflexivity.
Qed.

Lemma Events_closes_on_context_sample :
  (Close ∈ sample_trace <-> CtxDone ∈ sample_feed) /\
  (Close ∈ sample_trace <-> at_ {| ctx := Cancelled; at_ := Finished |} = Finished) /\
  (Close ∈ sample_trace ->
   ctx {| ctx := Cancelled; at_ := Finished |} = Cancelled \/
   ctx {| ctx := Cancelled; at_ := Finished |} = Expired) /\
  (closes sample_trace <= 1)%nat /\
  (at_ {| ctx := Cancelled; at_ := Finished |} = Selecting ->
   ctx {| ctx := Cancelled; at_ := Finished |} <> Live ->
   step (provider []) {| ctx := Cancelled; at_ := Finished |} CtxDone =
     Some (goto Finished {| ctx := Cancelled; at_ := Finished |}, [Close])) /\
  (forall err, err <> Canceled -> err <> DeadlineExceeded ->
               events_returned err {| ctx := Cancelled; at_ := Finished |} =
                 (goto Subscribing {| ctx := Cancelled; at_ := Finished |}, restarted)) /\
  (forall err, at_ {| ctx := Cancelled; at_ := Finished |} = Subscribing ->
               step (provider []) {| ctx := Cancelled; at_ := Finished |}
                 (Listener (Some err)) =
                 Some (goto Subscribing {| ctx := Cancelled; at_ := Finished |}, restarted)) /\
  (at_ {| ctx := Cancelled; at_ := Finished |} = Selecting ->
   step (provider []) {| ctx := Cancelled; at_ := Finished |} FeedClosed =
     Some (goto Subscribing {| ctx := Cancelled; at_ := Finished |}, restarted)) /\
  restarted = [Log "[WARN] docker events listener failed, restarted, %v";
               Sleep (100 * Millisecond)].
Proof.
  apply (Events_closes_on_context (provider []) Live sample_feed
           {| ctx := Cancelled; at_ := Finished |} sample_trace).
  reflexivity.
Defined.

Lemma refused_run d n : forall k,
  exists out,
    run d {| ctx := Cancelled; at_ := Subscribing |}
        (cancelled_then_refused <$> seq (S k) n) =
      Some ({| ctx := Cancelled; at_ := Subscribing |}, out) /\
    closes out = 0%nat.
Proof.
  induction n as [|n IH]; intros k.
  - by exists [].
  - destruct (IH (S k)) as (out & Hrun & Hout).
    exists (restarted ++ out). split.
    + change (seq (S k) (S n)) with (S k :: seq (S (S k)) n).
      rewrite fmap_cons. apply run_cons.
      by exists {| ctx := Cancelled; at_ := Subscribing |}, restarted, out.
    + by rewrite closes_app, Hout.
Qed.

(** C2, as the spec has it, fails: the owner cancels the context and the
    daemon refuses every subscription from then on; the goroutine goes on
    subscribing every 100ms, never reaches [select], and never closes the
    sink. *)
Lemma Events_cancelled_never_closes :
  cancelled_then_refused 0 = CtxCancel /\
  (forall n, exists out,
      run (provider []) (Events Live) (upto cancelled_then_refused (S n)) =
        Some ({| ctx := Cancelled; at_ := Subscribing |}, out) /\
      Close ∉ out) /\
  ~ eventually_closes (provider []) Live cancelled_then_refused.
Proof.
  assert (Hrun : forall n, exists out,
             run (provider []) (Events Live) (upto cancelled_then_refused (S n)) =
               Some ({| ctx := Cancelled; at_ := Subscribing |}, out) /\
             Close ∉ out).
  { intros n. destruct (refused_run (provider []) n 0) as (out & Hrun & Hout).
    exists out. split.
    - unfold upto. change (seq 0 (S n)) with (0%nat :: seq 1 n).
      rewrite fmap_cons. apply run_cons.
      by exists {| ctx := Cancelled; at_ := Subscribing |}, [], out.
    - rewrite closes_elem. lia. }
  split_and!; [done|done|].
  intros (n & w & out & Hn & Hclose).
  destruct n as [|n].
  - injection Hn as <- <-. inversion Hclose.
  - destruct (Hrun n) as (out' & Hn' & Hout'). congruence.
Qed.

(** * Further facts about the inventory *)

(** X1: [contains] answers whether the string is an element of the
    slice. *)
Theorem contains_decides e s :
  (contains e s = true <-> e ∈ s) /\ (contains e s = false <-> e ∉ s).
Proof. split; [apply contains_true | apply contains_false]. Qed.

(** X2: the loop over the per-network map finds the address of the
    configured network in whatever order the map is ranged over, and the
    empty string when the network is not a key. *)
Theorem network_ip_any_order network (m : gmap string dc.ContainerNetwork) entries :
  entries ≡ₚ map_to_list m ->
  network_ip network entries = default "" (dc.IPAddress <$> m !! network).
Proof.
  intros Hperm.
  assert (Hnd : NoDup entries.*1).
  { rewrite Hperm. apply NoDup_fst_map_to_list. }
  destruct (m !! network) as [v|] eqn:E; simpl.
  - apply network_ip_present; [done|]. rewrite Hperm. by apply elem_of_map_to_list.
  - apply network_ip_absent. intros Hin.
    apply list_elem_of_fmap in Hin as [[k v] [-> Hin]].
    rewrite Hperm in Hin. apply elem_of_map_to_list in Hin. simpl in *. congruence.
Qed.

Lemma network_ip_any_order_sample :
  network_ip "bridge" (reverse (map_to_list two_networks)) =
  default "" (dc.IPAddress <$> two_networks !! "bridge").
Proof.
  apply (network_ip_any_order "bridge" two_networks (reverse (map_to_list two_networks))).
  apply reverse_Permutation.
Defined.

(** X3: a container that is on the configured network with an empty
    address is left out like one that is not on it. *)
Theorem List_excludes_empty_address `{RegexpPkg} d d' pre c post network :
  enumerates d (pre ++ c :: post) ->
  enumerates d' (pre ++ post) ->
  same_config d d' ->
  dc.Networks (dc.ContainerNetworks c) !! Network d = Some network ->
  dc.IPAddress network = "" ->
  (forall ci, inspect d c <> Returned (Some ci)) /\
  (List d = Panicked \/ List d = List d') /\
  (dc.Names c <> [] -> List d = List d').
Proof.
  intros Hen Hen' Hcfg Hnet Hip.
  assert (Hdrop : forall ci, inspect d c <> Returned (Some ci)).
  { intros ci Hci. apply inspect_Some in Hci as [_ (?&?&nw&?&?&_&_&Hnw&Hne&_)].
    congruence. }
  split; [done|]. by eapply List_without.
Qed.

Lemma List_excludes_empty_address_sample :
  (forall ci, inspect (provider [unaddressed_container; bar_container ∅])
                unaddressed_container <> Returned (Some ci)) /\
  (@List sample_regexp (provider [unaddressed_container; bar_container ∅]) = Panicked \/
   @List sample_regexp (provider [unaddressed_container; bar_container ∅]) =
   @List sample_regexp (provider [bar_container ∅])) /\
  (dc.Names unaddressed_container <> [] ->
   @List sample_regexp (provider [unaddressed_container; bar_container ∅]) =
   @List sample_regexp (provider [bar_container ∅])).
Proof.
  apply (@List_excludes_empty_address sample_regexp
           (provider [unaddressed_container; bar_container ∅])
           (provider [bar_container ∅])
           [] unaddressed_container [bar_container ∅] {| dc.IPAddress := "" |}).
  - reflexivity.
  - reflexivity.
  - split; reflexivity.
  - reflexivity.
  - reflexivity.
Defined.

Lemma kept_ids d containers :
  (ID <$> containers ≫= kept d) `sublist_of` (dc.ID <$> containers).
Proof.
  induction containers as [|c rest IH]; simpl; [done|].
  unfold kept at 1. destruct (inspect d c) as [[ci|]|] eqn:Hc; simpl.
  - apply inspect_Some in Hc as [_ (?&?&?&?&?&_&_&_&_&_&->)]. simpl.
    by apply sublist_skip.
  - by apply sublist_cons.
  - by apply sublist_cons.
Qed.

(** X4: when [listContainers] returns, its snapshots are those of the
    containers that have an up status, a first name outside the exclusion
    set, a non-empty address on the configured network and a port mapping;
    each carries the de-prefixed name, the ID, the creation time divided by
    1000, the labels, that address and the first private port; and they
    come in the order of the enumeration. *)
Theorem listContainers_retained d containers infos :
  enumerates d containers ->
  listContainers d = Returned (infos, None) ->
  (forall ci,
      ci ∈ infos <->
      exists c name0 names network p ports,
        c ∈ containers /\
        contains (dc.Status c) upStatuses = true /\
        dc.Names c = name0 :: names /\
        contains (TrimPrefix name0 "/") (Excludes d) = false /\
        dc.Networks (dc.ContainerNetworks c) !! Network d = Some network /\
        dc.IPAddress network <> "" /\
        dc.Ports c = p :: ports /\
        ci = {| Name := TrimPrefix name0 "/";
                ID := dc.ID c;
                TS := dc.Created c `quot` 1000;
                Labels := dc.Labels c;
                IP := dc.IPAddress network;
                Port := int_of_int64 (dc.PrivatePort p) |}) /\
  (ID <$> infos) `sublist_of` (dc.ID <$> containers) /\
  (forall ci, ci ∈ infos -> IP ci <> "" /\ contains (Name ci) (Excludes d) = false).
Proof.
  intros Hen Hlist.
  destruct (listContainers_snapshots d containers infos None Hen Hlist) as (_ & -> & _).
  assert (Hchar : forall ci,
             ci ∈ containers ≫= kept d <->
             exists c, c ∈ containers /\ inspect d c = Returned (Some ci)).
  { intros ci. rewrite list_elem_of_bind. split.
    - intros (c & Hci & Hc). exists c. by rewrite <- kept_elem.
    - intros (c & Hc & Hci). exists c. by rewrite kept_elem. }
  split_and!.
  - intros ci. rewrite Hchar. split.
    + intros (c & Hc & Hci).
      apply inspect_Some in Hci as [Hup (n0 & ns & nw & p & ports & H1 & H2 & H3 & H4 & H5 & H6)].
      by exists c, n0, ns, nw, p, ports.
    + intros (c & n0 & ns & nw & p & ports & Hc & Hup & H1 & H2 & H3 & H4 & H5 & H6).
      exists c. split; [done|]. apply inspect_Some. split; [done|].
      by exists n0, ns, nw, p, ports.
  - apply kept_ids.
  - intros ci Hin. apply Hchar in Hin as (c & _ & Hci).
    apply inspect_Some in Hci as [_ (n0 & ns & nw & p & ports & _ & H2 & _ & H4 & _ & ->)].
    done.
Qed.

Lemma listContainers_retained_sample :
  (forall ci,
      ci ∈ [ {| ID := "4f1c0a77d2e9"; Name := "foo"; TS := 1600000000;
                Labels := ∅; IP := "10.0.0.5"; Port := 9000 |} ] <->
      exists c name0 names network p ports,
        c ∈ [hidden_container; foo_container ∅; unaddressed_container] /\
        contains (dc.Status c) upStatuses = true /\
        dc.Names c = name0 :: names /\
        contains (TrimPrefix name0 "/")
          (Excludes (provider [hidden_container; foo_container ∅; unaddressed_container]))
          = false /\
        dc.Networks (dc.ContainerNetworks c) !!
          Network (provider [hidden_container; foo_container ∅; unaddressed_container])
          = Some network /\
        dc.IPAddress network <> "" /\
        dc.Ports c = p :: ports /\
        ci = {| Name := TrimPrefix name0 "/";
                ID := dc.ID c;
                TS := dc.Created c `quot` 1000;
                Labels := dc.Labels c;
                IP := dc.IPAddress network;
                Port := int_of_int64 (dc.PrivatePort p) |}) /\
  (ID <$> [ {| ID := "4f1c0a77d2e9"; Name := "foo"; TS := 1600000000;
               Labels := ∅; IP := "10.0.0.5"; Port := 9000 |} ])
    `sublist_of` (dc.ID <$> [hidden_container; foo_container ∅; unaddressed_container]) /\
  (forall ci,
      ci ∈ [ {| ID := "4f1c0a77d2e9"; Name := "foo"; TS := 1600000000;
                Labels := ∅; IP := "10.0.0.5"; Port := 9000 |} ] ->
      IP ci <> "" /\
      contains (Name ci)
        (Excludes (provider [hidden_container; foo_container ∅; unaddressed_container]))
        = false).
Proof.
  apply (listContainers_retained
           (provider [hidden_container; foo_container ∅; unaddressed_container])
           [hidden_container; foo_container ∅; unaddressed_container]).
  - reflexivity.
  - reflexivity.
Defined.

(** ** The outcomes of [List] *)

Lemma mappers_None `{RegexpPkg} infos : forall res r,
  mappers infos res = (r, None) ->
  exists rules,
    r = res ++ rules /\ Forall compiles infos /\ Forall2 rule_of infos rules /\
    forall res', mappers infos res' = (res' ++ rules, None).
Proof.
  induction infos as [|ci rest IH]; intros res r; simpl.
  - intros [= <-]. exists []. split_and!; [by rewrite app_nil_r|done|done|].
    intros res'. by rewrite app_nil_r.
  - destruct (Compile (srcURL_of ci)) as [re|cause] eqn:Hre; [|done].
    intros Hrest. apply IH in Hrest as (rules & -> & Hall & Hrules & Hany).
    eexists (_ :: rules). split_and!.
    + by rewrite <- app_assoc.
    + constructor; [by exists re|done].
    + constructor; [|done]. split_and!; simpl; [done| |done]. by apply Compile_String.
    + intros res'. rewrite Hany. by rewrite <- app_assoc.
Qed.

Lemma mappers_Some `{RegexpPkg} infos : forall res r e,
  mappers infos res = (r, Some e) ->
  r = [] /\
  exists ci cause,
    ci ∈ infos /\ Compile (srcURL_of ci) = inr cause /\
    e = Wrap cause ("invalid src regex " +:+ srcURL_of ci).
Proof.
  induction infos as [|ci rest IH]; intros res r e; simpl; [done|].
  destruct (Compile (srcURL_of ci)) as [re|cause] eqn:Hre.
  - intros Hrest. apply IH in Hrest as (-> & ci' & cause & Hin & Hc & ->).
    split; [done|]. exists ci', cause. split_and!; [by constructor|done..].
  - intros [= <- <-]. split; [done|]. exists ci, cause. split_and!; [constructor|done..].
Qed.

Lemma mappers_app `{RegexpPkg} infos1 infos2 : forall res r1,
  mappers infos1 res = (r1, None) ->
  mappers (infos1 ++ infos2) res = mappers infos2 r1.
Proof.
  induction infos1 as [|ci rest IH]; intros res r1; simpl.
  - by intros [= <-].
  - destruct (Compile (srcURL_of ci)) as [re|cause]; [|done]. apply IH.
Qed.

(** X5: when the client fails to enumerate, [List] returns no rule and
    the client's error wrapped as "can't list containers", whatever came
    back beside the error; no container is looked at. *)
Theorem List_enumeration_error `{RegexpPkg} d containers e :
  ListContainers (Client d) {| dc.All := false |} = (containers, Some e) ->
  List d = Returned ([], Some (Wrap e "can't list containers")) /\
  Error (Wrap e "can't list containers") = "can't list containers: " +:+ Error e.
Proof.
  intros Hfail. split; [|reflexivity].
  unfold List, listContainers. by rewrite Hfail.
Qed.

Lemma List_enumeration_error_sample :
  @List sample_regexp failing_provider =
    Returned ([], Some (Wrap (errorString "dial unix /var/run/docker.sock: connection refused")
                          "can't list containers")) /\
  Error (Wrap (errorString "dial unix /var/run/docker.sock: connection refused")
           "can't list containers") =
    "can't list containers: "
    +:+ Error (errorString "dial unix /var/run/docker.sock: connection refused").
Proof.
  apply (@List_enumeration_error sample_regexp failing_provider
           [nameless_container "start"]).
  reflexivity.
Defined.

(** X6: [List] never returns rules together with an error: with an error
    the rule list is empty, and the error is either the enumeration error
    wrapped as "can't list containers" or the compile error of a retained
    container's pattern wrapped as "invalid src regex <pattern>". *)
Theorem List_error_without_rules `{RegexpPkg} d rules e :
  List d = Returned (rules, Some e) ->
  rules = [] /\
  ((exists containers cause,
       ListContainers (Client d) {| dc.All := false |} = (containers, Some cause) /\
       e = Wrap cause "can't list containers") \/
   (exists infos ci cause,
       listContainers d = Returned (infos, None) /\ ci ∈ infos /\
       Compile (srcURL_of ci) = inr cause /\
       e = Wrap cause ("invalid src regex " +:+ srcURL_of ci))).
Proof.
  unfold List. destruct (listContainers d) as [[infos [err|]]|] eqn:Hlist; [| |done].
  - intros [= <- <-]. split; [done|]. left.
    unfold listContainers in Hlist.
    destruct (ListContainers (Client d) {| dc.All := false |}) as [containers [cause|]].
    + injection Hlist as <- <-. by exists containers, cause.
    + destruct (scan d containers []); discriminate.
  - intros Hmap. injection Hmap as Hmap.
    apply mappers_Some in Hmap as (-> & ci & cause & Hin & Hc & ->).
    split; [done|]. right. by exists infos, ci, cause.
Qed.

Lemma List_error_without_rules_sample :
  @nil (@discovery.UrlMapper sample_regexp) = [] /\
  ((exists containers cause,
       ListContainers (Client (provider [bar_container ∅; foo_container broken_labels]))
         {| dc.All := false |} = (containers, Some cause) /\
       broken_error = Wrap cause "can't list containers") \/
   (exists infos ci cause,
       listContainers (provider [bar_container ∅; foo_container broken_labels]) =
         Returned (infos, None) /\ ci ∈ infos /\
       sample_Compile (srcURL_of ci) = inr cause /\
       broken_error = Wrap cause ("invalid src regex " +:+ srcURL_of ci))).
Proof.
  apply (@List_error_without_rules sample_regexp
           (provider [bar_container ∅; foo_container broken_labels]) [] broken_error).
  reflexivity.
Defined.

(** X7: over the snapshots of [listContainers], [List] returns rules
    without an error exactly when every snapshot's pattern compiles, and
    then there is one rule per snapshot, in the same order, each with the
    snapshot's server, its pattern compiled, and its destination. *)
Theorem List_rules_in_order `{RegexpPkg} d infos :
  listContainers d = Returned (infos, None) ->
  (Forall compiles infos <-> exists rules, List d = Returned (rules, None)) /\
  (forall rules,
      List d = Returned (rules, None) ->
      Forall2 rule_of infos rules /\ length rules = length infos).
Proof.
  intros Hlist. unfold List. rewrite Hlist. split.
  - split.
    + intros Hall. destruct (mappers_ok infos [] Hall) as (rules & -> & _).
      by exists rules.
    + intros (rules & Hmap). injection Hmap as Hmap.
      by apply mappers_None in Hmap as (? & _ & Hall & _).
  - intros rules Hmap. injection Hmap as Hmap.
    apply mappers_None in Hmap as (rules' & -> & _ & Hrules & _).
    split; [done|]. symmetry. by eapply Forall2_length.
Qed.

Lemma List_rules_in_order_sample :
  (Forall (@compiles sample_regexp)
     [ {| ID := "4f1c0a77d2e9"; Name := "foo"; TS := 1600000000;
          Labels := special_labels; IP := "10.0.0.5"; Port := 9000 |};
       {| ID := "a93b55c0e1f2"; Name := "bar"; TS := 1600000500; Labels := ∅;
          IP := "10.0.0.6"; Port := 8080 |} ] <->
   exists rules,
     @List sample_regexp (provider [foo_container special_labels; bar_container ∅]) =
     Returned (rules, None)) /\
  (forall rules,
      @List sample_regexp (provider [foo_container special_labels; bar_container ∅]) =
      Returned (rules, None) ->
      Forall2 (@rule_of sample_regexp)
        [ {| ID := "4f1c0a77d2e9"; Name := "foo"; TS := 1600000000;
             Labels := special_labels; IP := "10.0.0.5"; Port := 9000 |};
          {| ID := "a93b55c0e1f2"; Name := "bar"; TS := 1600000500; Labels := ∅;
             IP := "10.0.0.6"; Port := 8080 |} ] rules /\
      length rules = 2%nat).
Proof.
  apply (@List_rules_in_order sample_regexp
           (provider [foo_container special_labels; bar_container ∅])).
  reflexivity.
Defined.

(** ** Enumerations side by side *)

Lemma scan_app d containers1 containers2 : forall res,
  scan d (containers1 ++ containers2) res =
  match scan d containers1 res with
  | Panicked => Panicked
  | Returned res1 => scan d containers2 res1
  end.
Proof.
  induction containers1 as [|c rest IH]; intros res; simpl; [done|].
  destruct (inspect d c) as [[ci|]|]; by rewrite ?IH.
Qed.

Lemma scan_from d containers res :
  scan d containers res =
  match scan d containers [] with
  | Panicked => Panicked
  | Returned infos => Returned (res ++ infos)
  end.
Proof.
  destruct (scan d containers []) as [infos|] eqn:Hscan.
  - apply scan_Returned_inv in Hscan as [-> Hok]. by apply scan_Returned.
  - apply scan_Panicked_inv in Hscan as (c & Hin & Hc). by eapply scan_Panicked.
Qed.

Lemma List_enumerated `{RegexpPkg} d containers :
  enumerates d containers ->
  List d = match scan d containers [] with
           | Panicked => Panicked
           | Returned infos => Returned (mappers infos [])
           end.
Proof.
  intros Hen. unfold List. rewrite (listContainers_enumerates _ _ Hen).
  by destruct (scan d containers []).
Qed.

Lemma mappers_app_Some `{RegexpPkg} infos1 infos2 : forall res r e,
  mappers infos1 res = (r, Some e) ->
  mappers (infos1 ++ infos2) res = (r, Some e).
Proof.
  induction infos1 as [|ci rest IH]; intros res r e; simpl; [done|].
  destruct (Compile (srcURL_of ci)) as [re|cause]; [apply IH|done].
Qed.

(** X8: the listing of two enumerations put end to end, under one
    configuration: the rules of the first followed by the rules of the
    second when both listings succeed; the first one's compile error when
    it has one and the second does not panic; and a panic as soon as
    either panics, since every container is inspected before any pattern
    is compiled. *)
Theorem List_app `{RegexpPkg} d d1 d2 containers1 containers2 :
  enumerates d1 containers1 ->
  enumerates d2 containers2 ->
  enumerates d (containers1 ++ containers2) ->
  same_config d d1 -> same_config d d2 ->
  (forall rules1 rules2,
      List d1 = Returned (rules1, None) ->
      List d2 = Returned (rules2, None) ->
      List d = Returned (rules1 ++ rules2, None)) /\
  (forall rules e,
      List d1 = Returned (rules, Some e) ->
      List d2 <> Panicked ->
      List d = Returned ([], Some e)) /\
  (List d1 = Panicked \/ List d2 = Panicked -> List d = Panicked).
Proof.
  intros Hen1 Hen2 Hen Hcfg1 Hcfg2.
  rewrite (List_enumerated d1 _ Hen1), (List_enumerated d2 _ Hen2),
    (List_enumerated d _ Hen).
  rewrite scan_app, (scan_config d d1 containers1 [] Hcfg1).
  destruct (scan d1 containers1 []) as [infos1|].
  2:{ split_and!; [done..|]. by intros _. }
  rewrite (scan_from d containers2 infos1), (scan_config d d2 containers2 [] Hcfg2).
  destruct (scan d2 containers2 []) as [infos2|].
  2:{ split_and!; [done|by intros ? ? _ []|done]. }
  split_and!.
  - intros rules1 rules2 H1 H2. injection H1 as H1. injection H2 as H2.
    rewrite (mappers_app infos1 infos2 [] rules1 H1).
    apply mappers_None in H2 as (rules & Heq & _ & _ & Hany).
    simpl in Heq. subst rules. by rewrite Hany.
  - intros rules e H1 _. injection H1 as H1.
    rewrite (mappers_app_Some infos1 infos2 [] rules e H1).
    by apply mappers_Some in H1 as [-> _].
  - by intros [|].
Qed.

Lemma List_app_sample :
  (forall rules1 rules2,
      @List sample_regexp (provider [foo_container ∅; exited_container]) =
        Returned (rules1, None) ->
      @List sample_regexp (provider [bar_container special_labels]) =
        Returned (rules2, None) ->
      @List sample_regexp
        (provider ([foo_container ∅; exited_container] ++ [bar_container special_labels])) =
        Returned (rules1 ++ rules2, None)) /\
  (forall rules e,
      @List sample_regexp (provider [foo_container ∅; exited_container]) =
        Returned (rules, Some e) ->
      @List sample_regexp (provider [bar_container special_labels]) <> Panicked ->
      @List sample_regexp
        (provider ([foo_container ∅; exited_container] ++ [bar_container special_labels])) =
        Returned ([], Some e)) /\
  (@List sample_regexp (provider [foo_container ∅; exited_container]) = Panicked \/
   @List sample_regexp (provider [bar_container special_labels]) = Panicked ->
   @List sample_regexp
     (provider ([foo_container ∅; exited_container] ++ [bar_container special_labels])) =
     Panicked).
Proof.
  apply (@List_app sample_regexp
           (provider ([foo_container ∅; exited_container] ++ [bar_container special_labels]))
           (provider [foo_container ∅; exited_container])
           (provider [bar_container special_labels])
           [foo_container ∅; exited_container] [bar_container special_labels]).
  - reflexivity.
  - reflexivity.
  - reflexivity.
  - split; reflexivity.
  - split; reflexivity.
Defined.

(** ** A longer exclusion list *)

Lemma kept_more_excluded d d' c :
  Network d = Network d' ->
  (forall n, n ∈ Excludes d -> n ∈ Excludes d') ->
  kept d' c `sublist_of` kept d c.
Proof.
  intros Hnet Hsub. unfold kept at 1.
  destruct (inspect d' c) as [[ci|]|] eqn:Hc; [|apply sublist_nil_l..].
  assert (Hd : inspect d c = Returned (Some ci)).
  { apply inspect_Some in Hc as [Hup (n0 & ns & nw & p & ports & H1 & H2 & H3 & H4 & H5 & H6)].
    apply inspect_Some. split; [done|].
    exists n0, ns, nw, p, ports. rewrite Hnet. split_and!; try done.
    apply contains_false. apply contains_false in H2. intros Hin. by apply H2, Hsub. }
  unfold kept. by rewrite Hd.
Qed.

(** X9: adding names to the exclusion list, all else equal, only removes
    snapshots: what [listContainers] returns under the longer list is a
    sublist, in the same order, of what it returns under the shorter one,
    and it returns whenever the shorter one does. *)
Theorem listContainers_more_excluded d d' containers infos :
  enumerates d containers ->
  enumerates d' containers ->
  Network d = Network d' ->
  (forall n, n ∈ Excludes d -> n ∈ Excludes d') ->
  listContainers d = Returned (infos, None) ->
  exists infos',
    listContainers d' = Returned (infos', None) /\ infos' `sublist_of` infos.
Proof.
  intros Hen Hen' Hnet Hsub Hlist.
  destruct (listContainers_snapshots d containers infos None Hen Hlist) as (_ & -> & Hok).
  exists (containers ≫= kept d'). split.
  - apply listContainers_Returned; [done|].
    intros c Hin Hc. apply (Hok c Hin).
    apply inspect_Panicked. by apply inspect_Panicked in Hc.
  - clear Hen Hen' Hlist Hok.
    induction containers as [|c rest IH]; simpl; [done|].
    apply sublist_app; [by apply kept_more_excluded|done].
Qed.

Lemma listContainers_more_excluded_sample :
  exists infos',
    listContainers {| Client := stub [foo_container ∅; bar_container ∅];
                      Excludes := ["reproxy"; "foo"]; Network := "bridge" |} =
      Returned (infos', None) /\
    infos' `sublist_of`
      [ {| ID := "4f1c0a77d2e9"; Name := "foo"; TS := 1600000000;
           Labels := ∅; IP := "10.0.0.5"; Port := 9000 |};
        {| ID := "a93b55c0e1f2"; Name := "bar"; TS := 1600000500; Labels := ∅;
           IP := "10.0.0.6"; Port := 8080 |} ].
Proof.
  apply (listContainers_more_excluded
           (provider [foo_container ∅; bar_container ∅])
           {| Client := stub [foo_container ∅; bar_container ∅];
              Excludes := ["reproxy"; "foo"]; Network := "bridge" |}
           [foo_container ∅; bar_container ∅]).
  - reflexivity.
  - reflexivity.
  - reflexivity.
  - intros n Hin. apply list_elem_of_singleton in Hin as ->. apply list_elem_of_here.
  - reflexivity.
Defined.

(** * Further facts about the watcher *)

Lemma received_out d ev w :
  exists out,
    received d ev w = (if signalled d ev then goto Sending w else w, out) /\
    (out = [] \/
     out = [Log "[DEBUG] api event %+v"; Log "[DEBUG] container %s excluded"] \/
     out = [Log "[DEBUG] api event %+v"; Log "[INFO] new event %+v"]).
Proof.
  unfold received, signalled.
  destruct (String.eqb (dc.Type_ ev) "container"); cbn [negb andb orb];
    [|eexists; split; [reflexivity|by left]].
  destruct (contains (dc.EvStatus ev) upStatuses); cbn [negb andb orb].
  - destruct (contains _ (Excludes d)); cbn [negb]; eexists; split;
      [reflexivity|by right; left|reflexivity|by right; right].
  - destruct (contains (dc.EvStatus ev) downStatuses); cbn [negb andb orb];
      [|eexists; split; [reflexivity|by left]].
    destruct (contains _ (Excludes d)); cbn [negb]; eexists; split;
      [reflexivity|by right; left|reflexivity|by right; right].
Qed.

Lemma fixed_pauses_restarted : fixed_pauses restarted.
Proof.
  intros ns Hin. unfold restarted in Hin.
  apply elem_of_cons in Hin as [?|Hin]; [done|].
  apply list_elem_of_singleton in Hin. by injection Hin.
Qed.

Lemma fixed_pauses_app out out' :
  fixed_pauses out -> fixed_pauses out' -> fixed_pauses (out ++ out').
Proof.
  intros H1 H2 ns Hin. apply elem_of_app in Hin as [Hin|Hin]; [by apply H1|by apply H2].
Qed.

Lemma pauses_app out out' : pauses (out ++ out') = (pauses out + pauses out')%nat.
Proof. unfold pauses. by rewrite filter_app, length_app. Qed.

(** What one observation draws from the goroutine. *)
Lemma step_actions d w o w' out :
  step d w o = Some (w', out) ->
  signals out = (if taken o then 1 else 0)%nat /\
  ((if subscribed o then 1 else 0) + subscribing w')%nat =
    (subscribing w + pauses out)%nat /\
  fixed_pauses out /\
  (finished w = 1%nat -> out = []) /\
  (finished w = 0%nat -> finished w' = 1%nat -> out = [Close]).
Proof.
  assert (Hnone : fixed_pauses []) by (intros ns Hin; inversion Hin).
  destruct w as [c p]. unfold step. cbn [at_].
  destruct o as [| |[err|]| |ev| |], p; try discriminate; intros Hstep; simplify_eq;
    try (split_and!; (reflexivity || discriminate || done)).
  - rewrite events_returned_restart in Hstep by done. simplify_eq.
    split_and!; try (reflexivity || discriminate). apply fixed_pauses_restarted.
  - cbn [ctx] in Hstep. destruct (ctx_Err c) as [err|] eqn:Hc; [|done].
    rewrite (events_returned_ctx c err _ Hc) in Hstep. simplify_eq.
    split_and!; try (reflexivity || discriminate).
    intros ns Hin. apply list_elem_of_singleton in Hin. discriminate.
  - destruct (received_out d ev {| ctx := c; at_ := Selecting |}) as (lg & Hr & Hlg).
    assert (Hlogs : signals lg = 0%nat /\ pauses lg = 0%nat /\ fixed_pauses lg).
    { destruct Hlg as [-> | [-> | ->] ]; (split_and!; [reflexivity..|]);
        intros ns Hin; repeat (apply elem_of_cons in Hin as [?|Hin]; [done|]);
        inversion Hin. }
    destruct Hlogs as (Hs & Hp & Hf).
    rewrite Hr in Hstep. simplify_eq. rewrite Hs, Hp.
    destruct (signalled d ev); split_and!; try (reflexivity || discriminate || done).
  - rewrite events_returned_restart in Hstep by done. simplify_eq.
    split_and!; try (reflexivity || discriminate). apply fixed_pauses_restarted.
  - split_and!; try (reflexivity || discriminate).
    intros ns Hin. apply list_elem_of_singleton in Hin. discriminate.
Qed.

Lemma run_actions d os : forall w w' out,
  run d w os = Some (w', out) ->
  signals out = takes os /\
  (subscriptions os + subscribing w')%nat = (subscribing w + pauses out)%nat /\
  fixed_pauses out /\
  (finished w = 1%nat -> out = []) /\
  (finished w = 0%nat -> finished w' = 1%nat ->
   exists before, out = before ++ [Close] /\ Close ∉ before).
Proof.
  induction os as [|o rest IH]; intros w w'' out''.
  - intros [= <- <-]. split_and!;
      [reflexivity|unfold subscriptions, pauses; simpl; lia| |done|lia].
    intros ns Hin. inversion Hin.
  - rewrite run_cons. intros (w' & out & out' & Hstep & Hrun & ->).
    pose proof (step_closes d _ _ _ _ Hstep) as (Hcount & _ & _ & _).
    destruct (step_actions d _ _ _ _ Hstep) as (Hs & Hsub & Hfix & Hdead & Hclose).
    destruct (IH _ _ _ Hrun) as (Hs' & Hsub' & Hfix' & Hdead' & Hclose').
    pose proof (finished_le w'). split_and!.
    + rewrite signals_app, Hs, Hs'. unfold takes. rewrite filter_cons.
      destruct (taken o); reflexivity.
    + rewrite pauses_app. unfold subscriptions in *. rewrite filter_cons.
      destruct (subscribed o); simpl in *; lia.
    + by apply fixed_pauses_app.
    + intros Hw. rewrite (Hdead Hw). apply Hdead'. lia.
    + intros Hw Hw''.
      destruct (decide (finished w' = 1%nat)) as [Hw'|Hw'].
      * rewrite (Hclose Hw Hw'), (Hdead' Hw'). exists []. split; [done|].
        intros Hin. inversion Hin.
      * destruct Hclose' as (before & -> & Hbefore); [lia|done|].
        exists (out ++ before). split; [by rewrite app_assoc|].
        intros Hin. apply elem_of_app in Hin as [Hin|Hin]; [|done].
        apply closes_elem in Hin. lia.
Qed.

(** X10: once the sink is closed the goroutine does nothing more: in
    every run [Close], if it occurs, is the last action and occurs once,
    so nothing is ever sent on the closed sink. *)
Theorem Events_close_is_last d c os w out :
  run d (Events c) os = Some (w, out) ->
  Close ∈ out ->
  exists before, out = before ++ [Close] /\ (Close ∉ before) /\ at_ w = Finished.
Proof.
  intros Hrun Hin.
  destruct (run_closes d os _ _ _ Hrun) as (Hcount & _ & _).
  change (finished (Events c)) with 0%nat in Hcount.
  pose proof (finished_le w). apply closes_elem in Hin.
  assert (Hw : finished w = 1%nat) by lia.
  destruct (run_actions d os _ _ _ Hrun) as (_ & _ & _ & _ & Hclose).
  destruct (Hclose eq_refl Hw) as (before & -> & Hbefore).
  exists before. split_and!; [done..|]. by apply finished_at.
Qed.

Lemma Events_close_is_last_sample :
  exists before,
    sample_trace = before ++ [Close] /\ (Close ∉ before) /\
    at_ {| ctx := Cancelled; at_ := Finished |} = Finished.
Proof.
  apply (Events_close_is_last (provider []) Live sample_feed
           {| ctx := Cancelled; at_ := Finished |} sample_trace).
  - reflexivity.
  - apply closes_elem. vm_compute. discriminate.
Defined.

(** X12: the goroutine never subscribes in a busy loop: every sleep of a
    run lasts 100ms, and the calls of [AddEventListener] made so far, plus
    the one about to be made, are one more than the sleeps, so between any
    two subscriptions there is exactly one sleep. *)
Theorem Events_pause_before_resubscribing d c os w out :
  run d (Events c) os = Some (w, out) ->
  (subscriptions os + subscribing w)%nat = (1 + pauses out)%nat /\
  fixed_pauses out.
Proof.
  intros Hrun.
  destruct (run_actions d os _ _ _ Hrun) as (_ & Hsub & Hfix & _).
  split; [|done]. by rewrite Hsub.
Qed.

Lemma Events_pause_before_resubscribing_sample :
  (subscriptions sample_feed + subscribing {| ctx := Cancelled; at_ := Finished |})%nat =
    (1 + pauses sample_trace)%nat /\
  fixed_pauses sample_trace.
Proof.
  apply (Events_pause_before_resubscribing (provider []) Live sample_feed
           {| ctx := Cancelled; at_ := Finished |} sample_trace).
  reflexivity.
Defined.

(** X13: an event whose actor has no [name] attribute is handled as the
    event of the container named by the empty string: with the right type
    and status it is signalled unless the exclusion list holds the empty
    string. *)
Theorem events_unnamed_actor d w ev :
  at_ w = Selecting ->
  dc.Attributes (dc.Actor ev) !! "name" = None ->
  dc.Type_ ev = "container" ->
  dc.EvStatus ev ∈ upStatuses \/ dc.EvStatus ev ∈ downStatuses ->
  exists out,
    step d w (FeedEvent ev) =
      Some (if contains "" (Excludes d) then w else goto Sending w, out) /\
    signals out = 0%nat.
Proof.
  intros Hat Hname Htype Hstatus. unfold step. rewrite Hat.
  destruct (received_spec d ev w) as (out & Hr & Hs & _).
  exists out. split; [|done]. rewrite Hr. f_equal. f_equal.
  unfold signalled, actor_name. rewrite Hname, Htype. cbn [default].
  change (TrimPrefix "" "/") with "".
  assert (contains (dc.EvStatus ev) upStatuses || contains (dc.EvStatus ev) downStatuses
          = true) as ->.
  { apply orb_true_iff. by rewrite !contains_true. }
  by destruct (contains "" (Excludes d)).
Qed.

Lemma events_unnamed_actor_sample :
  exists out,
    step (provider []) {| ctx := Live; at_ := Selecting |}
      (FeedEvent {| dc.Type_ := "container"; dc.EvStatus := "die";
                    dc.Actor := {| dc.Attributes := ∅ |} |}) =
      Some (if contains "" (Excludes (provider []))
            then {| ctx := Live; at_ := Selecting |}
            else goto Sending {| ctx := Live; at_ := Selecting |}, out) /\
    signals out = 0%nat.
Proof.
  apply (events_unnamed_actor (provider []) {| ctx := Live; at_ := Selecting |}
           {| dc.Type_ := "container"; dc.EvStatus := "die";
              dc.Actor := {| dc.Attributes := ∅ |} |}).
  - reflexivity.
  - reflexivity.
  - reflexivity.
  - right. apply list_elem_of_here.
Defined.

(** X14: a fired context closes the sink as soon as the goroutine gets
    back to [select] and takes the case of the context: from wherever it
    stands, that is at most two observations away (the subscription
    succeeding, or the consumer taking the waiting signal, which is
    delivered before the close). *)
Theorem Events_can_close d w :
  ctx w <> Live ->
  at_ w <> Finished ->
  exists os out,
    (length os <= 2)%nat /\
    run d w os = Some (goto Finished w, out ++ [Close]) /\
    signals out = pending w /\ (Close ∉ out).
Proof.
  intros Hlive Hat. destruct w as [c p]. simpl in *.
  assert (Hc : exists err, ctx_Err c = Some err /\
                 events_returned err {| ctx := c; at_ := Selecting |} =
                   (goto Finished {| ctx := c; at_ := Selecting |}, [Close])).
  { destruct c; [done|by exists Canceled|by exists DeadlineExceeded]. }
  destruct Hc as (err & Herr & Hret).
  assert (Hsel : run d {| ctx := c; at_ := Selecting |} [CtxDone] =
                 Some ({| ctx := c; at_ := Finished |}, [Close])).
  { simpl. unfold step. simpl. by rewrite Herr, Hret. }
  destruct p; [| | |done].
  - exists [Listener None; CtxDone], []. split_and!; [simpl; lia| |done|].
    + apply run_cons. by exists {| ctx := c; at_ := Selecting |}, [], [Close].
    + intros Hin. inversion Hin.
  - exists [CtxDone], []. split_and!; [simpl; lia|done|done|].
    intros Hin. inversion Hin.
  - exists [Taken; CtxDone], [Signal]. split_and!; [simpl; lia| |done|].
    + apply run_cons. by exists {| ctx := c; at_ := Selecting |}, [Signal], [Close].
    + intros Hin. apply list_elem_of_singleton in Hin. discriminate.
Qed.

Lemma Events_can_close_sample :
  exists os out,
    (length os <= 2)%nat /\
    run (provider []) {| ctx := Cancelled; at_ := Sending |} os =
      Some (goto Finished {| ctx := Cancelled; at_ := Sending |}, out ++ [Close]) /\
    signals out = pending {| ctx := Cancelled; at_ := Sending |} /\ (Close ∉ out).
Proof.
  apply (Events_can_close (provider []) {| ctx := Cancelled; at_ := Sending |}).
  - discriminate.
  - discriminate.
Defined.
